(** * bravado_bitjws.client: request construction, response triage and
      client wiring

    A shallow embedding of [bravado_bitjws/client.py].  Python objects that
    the module mutates or shares (the caller's headers dict, the transport
    objects) live in an explicit store; exceptions are an error result; the
    calls that reach a collaborator or the outside world are recorded in a
    trace.  The external collaborators of the module (parameter marshaller,
    response unmarshaller, spec loader and builder, signing primitive, url
    parser) are interfaces, given as type classes. *)

From Stdlib Require Import ZArith String Ascii List Lia.
From stdpp Require Import base option list gmap strings pretty.

Set Warnings "-register-all".
Local Open Scope Z_scope.
Local Open Scope string_scope.

(** ** Python values *)

(** JSON-like values: what keyword arguments carry, what a response
    unmarshals to, what a swagger document is made of.  [VNone] is Python's
    [None]. *)
Inductive value : Type :=
| VNone
| VBool (b : bool)
| VInt (z : Z)
| VStr (s : string)
| VList (l : list value)
| VDict (d : list (string * value)).

(** An insertion-ordered dict with string keys ([op_kwargs],
    [operation.params]): iteration follows the list, keys are unique. *)
Definition dict (V : Type) : Type := list (string * V).

Definition keys {V} (d : dict V) : list string := map fst d.
Definition itervalues {V} (d : dict V) : list V := map snd d.

(** [d.pop(k, None)]: the value bound to [k], if any, and the dict without
    that binding; the order of the other bindings is kept. *)
Fixpoint dict_pop {V} (k : string) (d : dict V) : option V * dict V :=
  match d with
  | [] => (None, [])
  | (k', v) :: d' =>
      if String.eqb k k' then (Some v, d')
      else let (r, d'') := dict_pop k d' in (r, (k', v) :: d'')
  end.

(** ** Data model *)

Inductive Location := InQuery | InPath | InBody | InHeader.

(** [bravado_core.param.Param]: one declared parameter of an operation. *)
Record Param := mkParam {
  name : string;
  location : Location;
  required : bool;
  param_default : option value;
  param_type : string
}.

Definition has_default (p : Param) : bool :=
  match param_default p with Some _ => true | None => false end.

(** [bravado_core.spec.Spec], as far as the client reads it.  [http_client]
    is a reference to a transport object of the store. *)
Record Spec := mkSpec {
  spec_dict : value;
  origin_url : option string;
  http_client : nat;
  config : option value;
  api_url : string
}.

(** [bravado_core.operation.Operation].  [params] is the ordered dict of
    declared parameters, [responses] maps a status code to the schema
    declared for it. *)
Record Operation := mkOperation {
  operation_id : string;
  http_method : string;
  path_name : string;
  params : dict Param;
  responses : gmap Z value;
  deprecated : bool;
  swagger_spec : Spec
}.

(** [bravado_core.response.IncomingResponse] *)
Record IncomingResponse := mkResponse {
  status_code : Z;
  reason : string;
  text : string
}.

(** The request dict built by [construct_request].  ['headers'] is a
    reference to a dict object of the store: it is the caller's own dict
    when [_request_options] carries one.  ['connect_timeout'], ['timeout']
    and ['data'] are keys that may be absent. *)
Record Request := mkRequest {
  method : string;
  url : string;
  query : gmap string value;      (* request['params'] *)
  headers : nat;
  connect_timeout : option value;
  timeout : option value;
  data : option value
}.

(** The value of the reserved [_request_options] keyword: a dict read with
    [get]/[in] for the three recognised options. *)
Record RequestOptions := mkOptions {
  opt_headers : option nat;
  opt_connect_timeout : option value;
  opt_timeout : option value
}.

(** [**op_kwargs], read by type: the value of the reserved
    [_request_options] keyword, when it is given, and every other keyword
    with its value, in call order.  [op_kwargs.pop('_request_options', {})]
    is the first field, with the empty options for [None]; what the pop
    leaves in [op_kwargs] is the second. *)
Record Kwargs := mkKwargs {
  request_options : option RequestOptions;
  args : dict value
}.

(** ** Exceptions, store and effects *)

(** The exceptions of the module.  [HTTPError(response, message=None,
    swagger_result=None)]: an absent message is [None], an absent payload
    is Python's [None]. *)
Inductive Exn :=
| SwaggerMappingError (msg : string)
| MatchingResponseNotFound (msg : string)
| HTTPError (response : IncomingResponse) (message : option string)
            (swagger_result : value)
| OtherError (what : string).

(** What leaves the module: log lines, warnings, calls into the
    unmarshaller, requests handed to a transport. *)
Inductive Event :=
| LogLoading (spec_url : string)
| LogCall (op_id : string) (kw : Kwargs)
| DeprecationWarning (op_id : string)
| UnmarshalCall (status : Z)
| FetchSpec (client : nat) (spec_url : string)
| HttpRequest (client : nat) (request : Request).

(** A transport object.
    Modelled from the spec: [BitJWSRequestsClient] lives in
    [bravado_bitjws/requests_client.py]; it holds the signing key registered
    for each destination host. *)
Record HttpClient := mkClient {
  bitjws_keys : gmap (option string) string   (* hostname, or [None] *)
}.

Record World := mkWorld {
  dicts : list (gmap string value);   (* mutable dict objects (headers) *)
  clients : list HttpClient;          (* transport objects *)
  trace : list Event;                 (* most recent event last *)
  entropy : nat                       (* draws taken from the system RNG *)
}.

Inductive Result (A : Type) : Type :=
| Ok (a : A)
| Raise (e : Exn).
Arguments Ok {A} a.
Arguments Raise {A} e.

(** Computations: a store transformer that returns or raises. *)
Definition M (A : Type) : Type := World -> World * Result A.

Definition ret {A} (a : A) : M A := fun w => (w, Ok a).
Definition raise {A} (e : Exn) : M A := fun w => (w, Raise e).
Definition bind {A B} (m : M A) (k : A -> M B) : M B :=
  fun w => match m w with
           | (w', Ok a) => k a w'
           | (w', Raise e) => (w', Raise e)
           end.

(** [try: m  except: h]; [h e = None] when no clause catches [e]. *)
Definition try_except {A} (m : M A) (h : Exn -> option (M A)) : M A :=
  fun w => match m w with
           | (w', Ok a) => (w', Ok a)
           | (w', Raise e) =>
               match h e with
               | Some k => k w'
               | None => (w', Raise e)
               end
           end.

Notation "'do' x <- m ; k" := (bind m (fun x => k))
  (at level 10, x name, m at level 100, k at level 200,
   format "'[v' 'do'  x  <-  m ; '/' k ']'").
Notation "'do' ' p <- m ; k" := (bind m (fun x => match x with p => k end))
  (at level 10, p pattern, m at level 100, k at level 200, only parsing).
Notation "'run' m ; k" := (bind m (fun _ => k))
  (at level 10, m at level 100, k at level 200,
   format "'[v' 'run'  m ; '/' k ']'").

(** The store after one more event. *)
Definition record (e : Event) (w : World) : World :=
  mkWorld (dicts w) (clients w) (trace w ++ [e]) (entropy w).

Definition emit (e : Event) : M unit := fun w => (record e w, Ok tt).

(** A new dict object. *)
Definition new_dict (d : gmap string value) : M nat :=
  fun w => (mkWorld (dicts w ++ [d]) (clients w) (trace w) (entropy w),
            Ok (length (dicts w))).

(** [obj[k] = v] on the dict object at [l].  A reference always points to a
    live object; on an index outside the store nothing changes. *)
Definition dict_setitem (l : nat) (k : string) (v : value) : M unit :=
  fun w => (mkWorld (alter (insert k v) l (dicts w)) (clients w) (trace w)
                    (entropy w), Ok tt).

(** The contents of the dict object at [l]. *)
Definition deref (w : World) (l : nat) : gmap string value :=
  dicts w !!! l.

Definition lift {A} (r : Result A) : M A := fun w => (w, r).

(** ** External collaborators *)

(** The response unmarshaller of [bravado_core]: [unmarshal_schema_object]
    turns a response body into a typed value by a schema,
    [not_found_message] is the text of the "no matching response"
    diagnostic for a status code and an operation id. *)
Class ResponseUnmarshaller := {
  unmarshal_schema_object : value -> IncomingResponse -> value;
  not_found_message : Z -> string -> string
}.

(** The parameter marshaller of [bravado_core]: [marshal_schema_object] is
    the type coercion by the parameter's declared schema,
    [substitute_path] fills a path parameter (name, wire value) into a
    url. *)
Class ParamMarshaller := {
  marshal_schema_object : Param -> value -> value;
  substitute_path : string -> value -> string -> string
}.

(** The signing primitive [bitjws]: a key generated from a draw of the
    system RNG, and the portable (WIF) encoding of a secret; decoding
    raises on a string that is not WIF. *)
Class SigningPrimitive := {
  generate_private_key : nat -> string;
  wif_to_privkey : string -> option string;
  privkey_to_wif : string -> string
}.

(** The spec loader and builder of [bravado]/[bravado_core], and the url
    parser of the standard library.  [load_spec] fetches a document through
    a transport; [from_dict] is [Spec.from_dict]; [hostname_of] is
    [urlsplit(u).hostname]. *)
Class SpecLoader := {
  load_spec : HttpClient -> option (gmap string value) -> string -> Result value;
  from_dict : value -> option string -> nat -> option value -> Result Spec;
  hostname_of : option string -> Result (option string)
}.

(** ** ResponseTriage *)

Definition is_server_error (status : Z) : bool :=
  ((500 <=? status) && (status <=? 599))%Z.

Definition is_success (status : Z) : bool :=
  ((200 <=? status) && (status <? 300))%Z.

(** Modelled from the spec: [raise_on_unexpected] is library code that
    comes with [from bravado.client import *].  By the first step of the
    triage, and by the docstring of the callback ("On 5XX status code, the
    HTTPError has minimal information"), a status of the server-error class
    fails with an [HTTPError] that carries the response (status and reason)
    and nothing else. *)
Definition raise_on_unexpected (http_response : IncomingResponse) : M unit :=
  if is_server_error (status_code http_response)
  then raise (HTTPError http_response None VNone)
  else ret tt.

(** Modelled from the spec: [raise_on_expected] is library code that comes
    with [from bravado.client import *].  By the third step of the triage,
    and by the docstring of the callback ("On non-2XX status code with a
    matching response, the HTTPError contains the return value"), a status
    outside the success range fails with an [HTTPError] that carries the
    unmarshalled value. *)
Definition raise_on_expected (http_response : IncomingResponse)
    (swagger_return_value : value) : M unit :=
  if is_success (status_code http_response)
  then ret tt
  else raise (HTTPError http_response None swagger_return_value).

(** Modelled from the spec: [bravado_core.response.unmarshal_response]
    unmarshals the body by the schema declared for the status code in the
    operation's response map and fails with the "no matching response"
    condition when none is declared. *)
Definition unmarshal_response `{ResponseUnmarshaller}
    (incoming_response : IncomingResponse) (operation : Operation) : M value :=
  run emit (UnmarshalCall (status_code incoming_response));
  match responses operation !! status_code incoming_response with
  | Some schema => ret (unmarshal_schema_object schema incoming_response)
  | None =>
      raise (MatchingResponseNotFound
               (not_found_message (status_code incoming_response)
                                  (operation_id operation)))
  end.

Definition bitjws_response_callback `{ResponseUnmarshaller}
    (incoming_response : IncomingResponse) (operation : Operation) : M value :=
  run raise_on_unexpected incoming_response;
  do swagger_return_value <-
    try_except (unmarshal_response incoming_response operation)
      (fun e => match e with
                | MatchingResponseNotFound msg =>
                    Some (raise (HTTPError incoming_response (Some msg) VNone))
                | _ => None
                end);
  run raise_on_expected incoming_response swagger_return_value;
  ret swagger_return_value.

(** ** OperationAdapter *)

(** [str.upper] on the ASCII letters (an HTTP method has no others). *)
Definition upper_ascii (c : ascii) : ascii :=
  let n := nat_of_ascii c in
  if ((97 <=? n) && (n <=? 122))%nat then ascii_of_nat (n - 32) else c.

Fixpoint upper (s : string) : string :=
  match s with
  | EmptyString => EmptyString
  | String c s' => String (upper_ascii c) (upper s')
  end.

(** [s.rstrip('/')] *)
Fixpoint rstrip_slash (s : string) : string :=
  match s with
  | EmptyString => EmptyString
  | String c s' =>
      match rstrip_slash s' with
      | EmptyString => if Ascii.eqb c "/" then EmptyString
                       else String c EmptyString
      | t => String c t
      end
  end.

Definition set_url (u : string) (r : Request) : Request :=
  mkRequest (method r) u (query r) (headers r) (connect_timeout r)
            (timeout r) (data r).
Definition set_query (q : gmap string value) (r : Request) : Request :=
  mkRequest (method r) (url r) q (headers r) (connect_timeout r)
            (timeout r) (data r).
Definition set_data (d : option value) (r : Request) : Request :=
  mkRequest (method r) (url r) (query r) (headers r) (connect_timeout r)
            (timeout r) d.

(** Modelled from the spec: [bravado_core.param.marshal_param] places the
    value, coerced by the parameter's declared schema, at the parameter's
    transport location of the request, in place; [None] stands for the
    declared default of a parameter that has one.  The header mapping is
    the dict object the request refers to. *)
Definition marshal_param `{ParamMarshaller}
    (param : Param) (v : value) (request : Request) : M Request :=
  let v := match v, param_default param with
           | VNone, Some d => d
           | _, _ => v
           end in
  let wire := marshal_schema_object param v in
  match location param with
  | InQuery => ret (set_query (<[name param := wire]> (query request)) request)
  | InPath => ret (set_url (substitute_path (name param) wire (url request))
                           request)
  | InBody => ret (set_data (Some wire) request)
  | InHeader =>
      run dict_setitem (headers request) (name param) wire;
      ret request
  end.

(** The first loop of [construct_params], over [iteritems(op_kwargs)]:
    [current_params] loses each parameter that a keyword names. *)
Fixpoint marshal_supplied `{ParamMarshaller} (operation : Operation)
    (op_kwargs : dict value) (current_params : dict Param)
    (request : Request) : M (dict Param * Request) :=
  match op_kwargs with
  | [] => ret (current_params, request)
  | (param_name, param_value) :: rest =>
      match dict_pop param_name current_params with
      | (None, _) =>
          raise (SwaggerMappingError
                   (operation_id operation +:+ " does not have parameter "
                    +:+ param_name))
      | (Some param, current_params') =>
          do request' <- marshal_param param param_value request;
          marshal_supplied operation rest current_params' request'
      end
  end.

(** The second loop, over [itervalues(current_params)]. *)
Fixpoint marshal_remaining `{ParamMarshaller} (remaining : list Param)
    (request : Request) : M Request :=
  match remaining with
  | [] => ret request
  | remaining_param :: rest =>
      if required remaining_param then
        raise (SwaggerMappingError
                 (name remaining_param +:+ " is a required parameter"))
      else if negb (required remaining_param) && has_default remaining_param
      then
        do request' <- marshal_param remaining_param VNone request;
        marshal_remaining rest request'
      else marshal_remaining rest request
  end.

(** The request dict is mutated in place in the source; here the updated
    request is returned. *)
Definition construct_params `{ParamMarshaller} (operation : Operation)
    (request : Request) (op_kwargs : dict value) : M Request :=
  let current_params := params operation in   (* a copy *)
  do '(current_params, request) <-
    marshal_supplied operation op_kwargs current_params request;
  marshal_remaining (itervalues current_params) request.

Definition no_options : RequestOptions := mkOptions None None None.

Definition construct_request `{ParamMarshaller} (operation : Operation)
    (op_kwargs : Kwargs) : M Request :=
  let request_options := default no_options (request_options op_kwargs) in
  let url := rstrip_slash (api_url (swagger_spec operation))
             +:+ path_name operation in
  do headers <- match opt_headers request_options with
                | Some h => ret h
                | None => new_dict ∅
                end;
  let request :=
    mkRequest (upper (http_method operation)) url ∅ headers
              (opt_connect_timeout request_options)
              (opt_timeout request_options) None in
  construct_params operation request (args op_kwargs).

(** Modelled from the spec: [bravado.warning.warn_for_deprecated_op] emits
    a warning for an operation marked deprecated. *)
Definition warn_for_deprecated_op (operation : Operation) : M unit :=
  if deprecated operation
  then emit (DeprecationWarning (operation_id operation))
  else ret tt.

(** The handle of an exchange in flight: the request and the operation the
    response callback is bound to. *)
Record HTTPFuture := mkFuture {
  future_request : Request;
  future_operation : Operation
}.

(** Modelled from the spec: [http_client.request(request_params, callback)]
    of the transport takes the request for sending and returns the
    handle. *)
Definition http_client_request (client : nat) (request_params : Request)
    (callback_operation : Operation) : M HTTPFuture :=
  run emit (HttpRequest client request_params);
  ret (mkFuture request_params callback_operation).

(** [BitJWSCallableOperation.__call__] *)
Definition call `{ParamMarshaller} (operation : Operation)
    (op_kwargs : Kwargs) : M HTTPFuture :=
  run emit (LogCall (operation_id operation) op_kwargs);
  run warn_for_deprecated_op operation;
  do request_params <- construct_request operation op_kwargs;
  http_client_request (http_client (swagger_spec operation)) request_params
                      operation.

(** Waiting on the handle with the transport's response runs the bound
    callback. *)
Definition future_result `{ResponseUnmarshaller} (f : HTTPFuture)
    (incoming_response : IncomingResponse) : M value :=
  bitjws_response_callback incoming_response (future_operation f).

(** ** ClientFacade *)

(** [bitjws.PrivateKey]: the object holds the raw secret. *)
Record PrivateKey := mkPrivateKey { private_key : string }.

(** The [privkey] argument: absent, a WIF string, or a key object. *)
Inductive PrivkeyArg :=
| NoPrivkey
| WifString (wif : string)
| KeyObject (key : PrivateKey).

Inductive ResourceDecorator :=
| BitJWSResourceDecorator
| CustomDecorator (id : string).

(** What [SwaggerClient.__init__] keeps. *)
Record SwaggerClient := mkSwaggerClient {
  client_spec : Spec;
  client_decorator : ResourceDecorator
}.

#[global] Instance HttpClient_inhabited : Inhabited HttpClient :=
  populate (mkClient ∅).

(** [bitjws.PrivateKey()]: a fresh key from the system RNG. *)
Definition new_private_key `{SigningPrimitive} : M PrivateKey :=
  fun w => (mkWorld (dicts w) (clients w) (trace w) (S (entropy w)),
            Ok (mkPrivateKey (generate_private_key (entropy w)))).

(** [bitjws.PrivateKey(bitjws.wif_to_privkey(s))] *)
Definition private_key_of_wif `{SigningPrimitive} (s : string) : M PrivateKey :=
  match wif_to_privkey s with
  | Some secret => ret (mkPrivateKey secret)
  | None => raise (OtherError "wif_to_privkey")
  end.

(** The [if privkey is None: ... elif isinstance(privkey, str): ...] that
    opens both constructors. *)
Definition privkey_or_new `{SigningPrimitive} (privkey : PrivkeyArg)
    : M PrivateKey :=
  match privkey with
  | NoPrivkey => new_private_key
  | WifString s => private_key_of_wif s
  | KeyObject k => ret k
  end.

(** Modelled from the spec: [BitJWSRequestsClient()] of
    [bravado_bitjws/requests_client.py], a new signing transport with no
    key registered. *)
Definition BitJWSRequestsClient : M nat :=
  fun w => (mkWorld (dicts w) (clients w ++ [mkClient ∅]) (trace w)
                    (entropy w), Ok (length (clients w))).

(** Modelled from the spec: [set_bitjws_key] of
    [bravado_bitjws/requests_client.py] registers the signing identity
    against a host; registering again for the same host replaces the prior
    mapping. *)
Definition set_bitjws_key (client : nat) (host : option string)
    (wif : string) : M unit :=
  fun w => (mkWorld (dicts w)
                    (alter (fun c => mkClient (<[host := wif]> (bitjws_keys c)))
                           client (clients w))
                    (trace w) (entropy w), Ok tt).

(** The [if http_client is None: ...] of both constructors: a supplied
    transport is used as it is; otherwise the host is resolved from the
    url and a new signing transport gets the key registered for it. *)
Definition http_client_or_new `{SigningPrimitive} `{SpecLoader}
    (http_client : option nat) (url : option string) (privkey : PrivateKey)
    : M nat :=
  match http_client with
  | Some c => ret c
  | None =>
      do host <- lift (hostname_of url);
      do c <- BitJWSRequestsClient;
      run set_bitjws_key c host (privkey_to_wif (private_key privkey));
      ret c
  end.

Definition from_spec `{SigningPrimitive} `{SpecLoader}
    (spec_dict : value) (origin_url : option string)
    (http_client : option nat) (config : option value)
    (resource_decorator : option ResourceDecorator) (privkey : PrivkeyArg)
    : M SwaggerClient :=
  do privkey <- privkey_or_new privkey;
  do http_client <- http_client_or_new http_client origin_url privkey;
  let resource_decorator :=
    default BitJWSResourceDecorator resource_decorator in
  do swagger_spec <- lift (from_dict spec_dict origin_url http_client config);
  ret (mkSwaggerClient swagger_spec resource_decorator).

(** [Loader(http_client, request_headers).load_spec(spec_url)]: the
    document is fetched through the transport as it is at that moment. *)
Definition loader_load_spec `{SpecLoader} (http_client : nat)
    (request_headers : option (gmap string value)) (spec_url : string)
    : M value :=
  run emit (FetchSpec http_client spec_url);
  fun w => (w, load_spec (clients w !!! http_client) request_headers spec_url).

Definition from_url `{SigningPrimitive} `{SpecLoader}
    (spec_url : string) (http_client : option nat)
    (request_headers : option (gmap string value)) (config : option value)
    (resource_decorator : option ResourceDecorator) (privkey : PrivkeyArg)
    : M SwaggerClient :=
  run emit (LogLoading spec_url);
  do privkey <- privkey_or_new privkey;
  do http_client <- http_client_or_new http_client (Some spec_url) privkey;
  do spec_dict <- loader_load_spec http_client request_headers spec_url;
  from_spec spec_dict (Some spec_url) (Some http_client) config
            resource_decorator (KeyObject privkey).

(** ** Sample collaborators and data, for running the definitions *)

(** An unmarshaller for error bodies: every schema reads the body as
    [{"reason": body}]. *)
Definition reason_unmarshaller : ResponseUnmarshaller := {|
  unmarshal_schema_object := fun _ r => VDict [("reason", VStr (text r))];
  not_found_message := fun _ op_id =>
    "Response specification matching http status_code not found for operation "
    +:+ op_id
|}.

(** [s.replace(token, new)]: every occurrence of [token], left to right;
    [skip] counts the characters of an occurrence still to pass over. *)
Fixpoint replace_from (token new : string) (skip : nat) (s : string) : string :=
  match s with
  | EmptyString => EmptyString
  | String c s' =>
      match skip with
      | S n => replace_from token new n s'
      | O =>
          if String.prefix token s && negb (String.eqb token "")
          then new +:+ replace_from token new (String.length token - 1) s'
          else String c (replace_from token new 0 s')
      end
  end.

Definition render (v : value) : string :=
  match v with
  | VStr s => s
  | VInt z => pretty z
  | _ => ""
  end.

(** A marshaller without coercion that fills [{name}] in the path template
    with the text of the value. *)
Definition plain_marshaller : ParamMarshaller := {|
  marshal_schema_object := fun _ v => v;
  substitute_path := fun n v u =>
    replace_from ("{" +:+ n +:+ "}") (render v) 0 u
|}.

Definition empty_world : World := mkWorld [] [] [] 0.

Definition widget_spec : Spec :=
  mkSpec VNone (Some "http://widgets.example/swagger.json") 0 None
         "http://widgets.example/api/".

Definition error_schema : value := VDict [("type", VStr "object")].

(** [getWidget]: a required path parameter, an optional header with a
    default, and schemas declared for 200, 400 and 503. *)
Definition getWidget : Operation :=
  mkOperation "getWidget" "get" "/widgets/{id}"
    [("id", mkParam "id" InPath true None "integer");
     ("X-Trace", mkParam "X-Trace" InHeader false (Some (VStr "off")) "string")]
    (<[200 := VDict []]> (<[400 := error_schema]> (<[503 := error_schema]> ∅)))
    false widget_spec.

Definition ok_response : IncomingResponse := mkResponse 200 "OK" "{}".
Definition bad_request : IncomingResponse :=
  mkResponse 400 "Bad Request" "bad input".
Definition not_found : IncomingResponse := mkResponse 404 "Not Found" "gone".
Definition unavailable : IncomingResponse :=
  mkResponse 503 "Service Unavailable" "bad input".

Definition id_param : Param := mkParam "id" InPath true None "integer".

(** A call that leaves out the required [id]. *)
Definition kw_missing_id : Kwargs := mkKwargs None [("X-Trace", VStr "on")].

(** A call with two keywords that [getWidget] does not declare. *)
Definition kw_two_unknown : Kwargs :=
  mkKwargs None [("id", VInt 5); ("foo", VInt 1); ("bar", VInt 2)].

(** A call that leaves out [id] and passes an undeclared keyword. *)
Definition kw_bogus : Kwargs := mkKwargs None [("bogus", VInt 1)].

(** [getWidget(id=5, **{'X-Trace': 'on'}, _request_options={'headers': h,
    'timeout': 30})] where [h] is the dict object 0 of the store. *)
Definition kw_traced : Kwargs :=
  mkKwargs (Some (mkOptions (Some 0%nat) None (Some (VInt 30))))
           [("id", VInt 5); ("X-Trace", VStr "on")].

(** A store in which the caller holds a headers dict [{'Accept': 'json'}]. *)
Definition caller_world : World :=
  mkWorld [ {[ "Accept" := VStr "json" ]} ] [] [] 0.

(** A signing primitive whose WIF encoding is the secret behind a tag. *)
Definition tagged_signing : SigningPrimitive := {|
  generate_private_key := fun n => "secret-" +:+ pretty n;
  wif_to_privkey := fun s =>
    if String.prefix "wif:" s
    then Some (String.substring 4 (String.length s - 4) s)
    else None;
  privkey_to_wif := fun secret => "wif:" +:+ secret
|}.

(** A loader that always finds the widget document, and a url parser that
    knows one host; [absent] is its answer for an absent url. *)
Definition widget_loader (absent : Result (option string)) : SpecLoader := {|
  load_spec := fun _ _ _ => Ok (VDict [("swagger", VStr "2.0")]);
  from_dict := fun d origin hc cfg =>
    Ok (mkSpec d origin hc cfg "http://widgets.example/api/");
  hostname_of := fun u =>
    match u with
    | Some _ => Ok (Some "widgets.example")
    | None => absent
    end
|}.

(** A store with one transport, supplied by the caller, without keys. *)
Definition transport_world : World := mkWorld [] [mkClient ∅] [] 0.

(** ** Notions the theorems are stated with *)

(** The first keyword, in call order, that names no declared parameter. *)
Definition first_unknown (operation : Operation) (op_kwargs : dict value)
    : option string :=
  List.find (fun k => negb (bool_decide (k ∈ keys (params operation))))
            (keys op_kwargs).

Definition unknown_parameter_message (operation : Operation) (k : string)
    : string :=
  operation_id operation +:+ " does not have parameter " +:+ k.

Definition required_parameter_message (p : Param) : string :=
  name p +:+ " is a required parameter".

(** Events that are network I/O. *)
Definition network_io (e : Event) : bool :=
  match e with
  | FetchSpec _ _ | HttpRequest _ _ => true
  | _ => false
  end.

(** A request with its header mapping read from the store: the
    RequestDescription a transport would see. *)
Record RequestDescription := mkDescription {
  rd_method : string;
  rd_url : string;
  rd_query : gmap string value;
  rd_headers : gmap string value;
  rd_connect_timeout : option value;
  rd_timeout : option value;
  rd_data : option value
}.

Definition describe (w : World) (r : Request) : RequestDescription :=
  mkDescription (method r) (url r) (query r) (deref w (headers r))
                (connect_timeout r) (timeout r) (data r).

Definition result_map {A B} (f : A -> B) (r : Result A) : Result B :=
  match r with
  | Ok a => Ok (f a)
  | Raise e => Raise e
  end.

(** Item assignments in sequence on one dict. *)
Definition inserts (writes : list (string * value)) (d : gmap string value)
    : gmap string value :=
  fold_left (fun d kv => <[kv.1 := kv.2]> d) writes d.

(** The store after item assignments on the dict object at [l]. *)
Definition write_headers (l : nat) (writes : list (string * value))
    (w : World) : World :=
  mkWorld (alter (inserts writes) l (dicts w)) (clients w) (trace w)
          (entropy w).

Definition set_headers (l : nat) (r : Request) : Request :=
  mkRequest (method r) (url r) (query r) l (connect_timeout r) (timeout r)
            (data r).

(** What [marshal_param] puts on the wire for a parameter. *)
Definition wire_value `{ParamMarshaller} (param : Param) (v : value) : value :=
  marshal_schema_object param
    match v, param_default param with
    | VNone, Some d => d
    | _, _ => v
    end.

(** The part of [marshal_param] that lands in the request dict itself, and
    the part that lands in the header mapping. *)
Definition place `{ParamMarshaller} (param : Param) (v : value)
    (request : Request) : Request :=
  match location param with
  | InQuery =>
      set_query (<[name param := wire_value param v]> (query request)) request
  | InPath =>
      set_url (substitute_path (name param) (wire_value param v) (url request))
              request
  | InBody => set_data (Some (wire_value param v)) request
  | InHeader => request
  end.

Definition header_writes `{ParamMarshaller} (param : Param) (v : value)
    : list (string * value) :=
  match location param with
  | InHeader => [(name param, wire_value param v)]
  | _ => []
  end.

(** Path parameters filled into a url, in order. *)
Definition fill_paths `{ParamMarshaller} (fills : list (string * value))
    (u : string) : string :=
  fold_left (fun u kv => substitute_path kv.1 kv.2 u) fills u.

(** The dict object that becomes the request's header mapping: the
    caller's, or the one [construct_request] creates. *)
Definition headers_object (op_kwargs : Kwargs) (w : World) : nat :=
  match opt_headers (default no_options (request_options op_kwargs)) with
  | Some l => l
  | None => length (dicts w)
  end.

(** The store in which that object exists. *)
Definition with_headers_object (op_kwargs : Kwargs) (w : World) : World :=
  match opt_headers (default no_options (request_options op_kwargs)) with
  | Some l => w
  | None => (new_dict ∅ w).1
  end.

(** [req'] comes from [req] by marshalling: same method, same timeouts,
    same header object, and a url that is the url of [req] with path
    parameters filled in. *)
Definition marshalled_from `{ParamMarshaller} (req req' : Request) : Prop :=
  method req' = method req /\
  headers req' = headers req /\
  connect_timeout req' = connect_timeout req /\
  timeout req' = timeout req /\
  exists fills, url req' = fill_paths fills (url req).

(** A [privkey] argument the constructors can resolve: a string has to be
    a WIF encoding. *)
Definition usable_privkey `{SigningPrimitive} (privkey : PrivkeyArg) : Prop :=
  match privkey with
  | WifString s => is_Some (wif_to_privkey s)
  | _ => True
  end.

(** The client built around a spec. *)
Definition client_of (resource_decorator : option ResourceDecorator)
    (s : Spec) : SwaggerClient :=
  mkSwaggerClient s (default BitJWSResourceDecorator resource_decorator).

(** What the keywords of a call are: a dict has each key once, and the
    reserved keyword is not one of the operation's arguments. *)
Definition well_formed_kwargs (op_kwargs : Kwargs) : Prop :=
  NoDup (keys (args op_kwargs)) /\
  "_request_options" ∉ keys (args op_kwargs).

(** Closes a decidable statement about concrete data. *)
Ltac by_evaluation :=
  match goal with
  | |- ?P => apply (@bool_decide_unpack P _); vm_compute; exact I
  end.

(** ** Variations of an operation, for comparing two runs *)

Definition with_api_url (u : string) (operation : Operation) : Operation :=
  mkOperation (operation_id operation) (http_method operation)
    (path_name operation) (params operation) (responses operation)
    (deprecated operation)
    (mkSpec (spec_dict (swagger_spec operation))
            (origin_url (swagger_spec operation))
            (http_client (swagger_spec operation))
            (config (swagger_spec operation)) u).

Definition with_params (ps : dict Param) (operation : Operation) : Operation :=
  mkOperation (operation_id operation) (http_method operation)
    (path_name operation) ps (responses operation) (deprecated operation)
    (swagger_spec operation).

(** The events a call adds before it builds the request. *)
Definition call_prelude (operation : Operation) (op_kwargs : Kwargs)
    : list Event :=
  LogCall (operation_id operation) op_kwargs ::
  (if deprecated operation
   then [DeprecationWarning (operation_id operation)] else []).

(** The secret of the key a constructor ends up with: drawn from the RNG,
    decoded from the WIF string, or read off the key object. *)
Definition resolved_secret `{SigningPrimitive} (privkey : PrivkeyArg)
    (w : World) : string :=
  match privkey with
  | NoPrivkey => generate_private_key (entropy w)
  | WifString s => default "" (wif_to_privkey s)
  | KeyObject k => private_key k
  end.

(** The RNG after the [privkey] argument is resolved. *)
Definition entropy_after (privkey : PrivkeyArg) (w : World) : nat :=
  match privkey with
  | NoPrivkey => S (entropy w)
  | _ => entropy w
  end.

(** [listWidgets]: an optional query parameter without default, no header
    parameter, deprecated. *)
Definition tag_param : Param := mkParam "tag" InQuery false None "string".

Definition listWidgets : Operation :=
  mkOperation "listWidgets" "get" "/widgets"
    [("tag", tag_param);
     ("limit", mkParam "limit" InQuery false (Some (VInt 20)) "integer")]
    (<[200 := VList []]> ∅) true widget_spec.

(** [listWidgets(limit=5, _request_options={'headers': h})] *)
Definition kw_limit : Kwargs :=
  mkKwargs (Some (mkOptions (Some 0%nat) None None)) [("limit", VInt 5)].

(** [getWidget(id=5)] *)
Definition kw_id : Kwargs := mkKwargs None [("id", VInt 5)].

(** A success status that [getWidget] declares no schema for. *)
Definition created : IncomingResponse := mkResponse 201 "Created" "{}".

(** A loader whose url parser resolves no host at all. *)
Definition unresolving_loader : SpecLoader := {|
  load_spec := fun _ _ _ => Ok (VDict [("swagger", VStr "2.0")]);
  from_dict := fun d origin hc cfg =>
    Ok (mkSpec d origin hc cfg "http://widgets.example/api/");
  hostname_of := fun _ => Raise (OtherError "urlsplit")
|}.

(** The request [getWidget(id=5)] builds in the empty store; its header
    mapping is the new dict object 0. *)
Definition widget_request : Request :=
  mkRequest "GET" "http://widgets.example/api/widgets/5" ∅ 0 None None None.

(** The first required parameter, in declaration order, that no keyword
    names. *)
Definition first_missing_required (operation : Operation)
    (op_kwargs : dict value) : option Param :=
  List.find required
    (itervalues
       (List.filter (fun kp => negb (bool_decide (kp.1 ∈ keys op_kwargs)))
                    (params operation))).

Definition trace_param : Param :=
  mkParam "X-Trace" InHeader false (Some (VStr "off")) "string".

(** A store in which the caller's headers dict already has an [X-Trace]
    entry, and what [construct_request] leaves of it for [kw_traced]. *)
Definition stale_world : World :=
  mkWorld [ <["X-Trace" := VStr "stale"]> {[ "Accept" := VStr "json" ]} ]
          [] [] 0.

Definition traced_world : World :=
  mkWorld [ <["X-Trace" := VStr "on"]> {[ "Accept" := VStr "json" ]} ]
          [] [] 0.

Definition traced_request : Request :=
  mkRequest "GET" "http://widgets.example/api/widgets/5" ∅ 0 None
            (Some (VInt 30)) None.

(** [putWidget]: two required parameters. *)
Definition putWidget : Operation :=
  mkOperation "putWidget" "put" "/widgets/{id}"
    [("id", id_param);
     ("body", mkParam "body" InBody true None "object");
     ("X-Trace", trace_param)]
    (<[204 := VNone]> ∅) false widget_spec.

(** [putWidget] called with the keyword [X-Trace] alone: both required
    parameters are left out. *)
Definition kw_only_trace : Kwargs := mkKwargs None [("X-Trace", VStr "on")].

(** The body of [bitjws_response_callback] with the call
    [unmarshal_response(incoming_response, operation)] left open: whatever
    that call does is [unmarshal]. *)
Definition callback_around (unmarshal : M value)
    (incoming_response : IncomingResponse) : M value :=
  run raise_on_unexpected incoming_response;
  do swagger_return_value <-
    try_except unmarshal
      (fun e => match e with
                | MatchingResponseNotFound msg =>
                    Some (raise (HTTPError incoming_response (Some msg) VNone))
                | _ => None
                end);
  run raise_on_expected incoming_response swagger_return_value;
  ret swagger_return_value.

(** What the callback raises when the unmarshalling step raises [e]. *)
Definition reraised (incoming_response : IncomingResponse) (e : Exn) : Exn :=
  match e with
  | MatchingResponseNotFound msg => HTTPError incoming_response (Some msg) VNone
  | _ => e
  end.

(** The path parameters [construct_request] fills into the url, in the
    order of the two loops: those of the keywords, each looked up among the
    parameters not yet consumed, then the defaults of the parameters
    left. *)
Definition path_fill `{ParamMarshaller} (p : Param) (v : value)
    : list (string * value) :=
  match location p with
  | InPath => [(name p, wire_value p v)]
  | _ => []
  end.

Fixpoint supplied_fills `{ParamMarshaller} (op_kwargs : dict value)
    (current_params : dict Param) : list (string * value) * dict Param :=
  match op_kwargs with
  | [] => ([], current_params)
  | (k, v) :: rest =>
      match dict_pop k current_params with
      | (Some p, current_params') =>
          let (fills, left) := supplied_fills rest current_params' in
          ((path_fill p v ++ fills)%list, left)
      | (None, _) => ([], current_params)
      end
  end.

Fixpoint default_fills `{ParamMarshaller} (remaining : list Param)
    : list (string * value) :=
  match remaining with
  | [] => []
  | p :: rest =>
      if negb (required p) && has_default p
      then (path_fill p VNone ++ default_fills rest)%list
      else default_fills rest
  end.

Definition path_fills `{ParamMarshaller} (operation : Operation)
    (op_kwargs : dict value) : list (string * value) :=
  let (fills, left) := supplied_fills op_kwargs (params operation) in
  (fills ++ default_fills (itervalues left))%list.

(** [pingWidget]: one optional header parameter without default. *)
Definition pingWidget : Operation :=
  mkOperation "pingWidget" "get" "/ping"
    [("X-Trace", mkParam "X-Trace" InHeader false None "string")]
    (<[200 := VNone]> ∅) false widget_spec.

(** Two calls of [pingWidget] that pass the caller's headers dict, the
    dict object 0 of the store: one with the header parameter, one with no
    argument at all. *)
Definition kw_ping_traced : Kwargs :=
  mkKwargs (Some (mkOptions (Some 0%nat) None None)) [("X-Trace", VStr "on")].

Definition kw_ping : Kwargs :=
  mkKwargs (Some (mkOptions (Some 0%nat) None None)) [].

(** ** ResponseTriage: theorems *)

Section Triage.
Context `{U : ResponseUnmarshaller}.

Lemma success_not_server_error (status : Z) :
  is_success status = true -> is_server_error status = false.
Proof. unfold is_success, is_server_error. lia. Qed.

(** The callback after the server-error check, on a declared status. *)
Lemma callback_declared (r : IncomingResponse) (op : Operation)
    (schema : value) (w : World) :
  is_server_error (status_code r) = false ->
  responses op !! status_code r = Some schema ->
  bitjws_response_callback r op w =
    (record (UnmarshalCall (status_code r)) w,
     if is_success (status_code r)
     then Ok (unmarshal_schema_object schema r)
     else Raise (HTTPError r None (unmarshal_schema_object schema r))).
Proof.
  intros Hse Hdecl.
  unfold bitjws_response_callback, raise_on_unexpected, unmarshal_response,
    raise_on_expected, try_except, bind, emit, ret, raise.
  rewrite Hse, Hdecl. destruct (is_success (status_code r)); reflexivity.
Qed.

(** The callback after the server-error check, on an undeclared status. *)
Lemma callback_undeclared (r : IncomingResponse) (op : Operation) (w : World) :
  is_server_error (status_code r) = false ->
  responses op !! status_code r = None ->
  bitjws_response_callback r op w =
    (record (UnmarshalCall (status_code r)) w,
     Raise (HTTPError r
              (Some (not_found_message (status_code r) (operation_id op)))
              VNone)).
Proof.
  intros Hse Hdecl.
  unfold bitjws_response_callback, raise_on_unexpected, unmarshal_response,
    raise_on_expected, try_except, bind, emit, ret, raise.
  rewrite Hse, Hdecl. reflexivity.
Qed.

(** C1: on a status of the success range with a schema declared for it,
    the callback returns the value the unmarshaller produced from the
    response by that schema, as it is; the unmarshaller is entered once. *)
Theorem callback_success_returns_unmarshalled (r : IncomingResponse)
    (op : Operation) (schema : value) (w : World) :
  is_success (status_code r) = true ->
  responses op !! status_code r = Some schema ->
  bitjws_response_callback r op w =
    (record (UnmarshalCall (status_code r)) w,
     Ok (unmarshal_schema_object schema r)).
Proof.
  intros Hok Hdecl.
  rewrite (callback_declared r op schema w); auto using success_not_server_error.
  by rewrite Hok.
Qed.

(** C2: on a status of the server-error class the callback raises an
    [HTTPError] that carries the response with neither message nor
    payload, whatever the response map declares, and the store is left as
    it was: the unmarshaller is not entered. *)
Theorem callback_server_error_minimal (r : IncomingResponse) (op : Operation)
    (w : World) :
  is_server_error (status_code r) = true ->
  bitjws_response_callback r op w = (w, Raise (HTTPError r None VNone)).
Proof.
  intros Hse.
  unfold bitjws_response_callback, raise_on_unexpected, bind, raise.
  by rewrite Hse.
Qed.

(** C5 (amended): on a status outside the success range and outside the
    server-error class with a schema declared for it, the callback raises
    an [HTTPError] whose payload is the value unmarshalled by that schema. *)
Theorem callback_documented_error_payload (r : IncomingResponse)
    (op : Operation) (schema : value) (w : World) :
  is_success (status_code r) = false ->
  is_server_error (status_code r) = false ->
  responses op !! status_code r = Some schema ->
  bitjws_response_callback r op w =
    (record (UnmarshalCall (status_code r)) w,
     Raise (HTTPError r None (unmarshal_schema_object schema r))).
Proof.
  intros Hok Hse Hdecl.
  rewrite (callback_declared r op schema w); auto. by rewrite Hok.
Qed.

(** C6: on a status outside the server-error class and outside the success
    range with no schema declared for it, the callback raises an
    [HTTPError] whose message is the unmarshaller's "no matching response"
    diagnostic; the [MatchingResponseNotFound] itself does not escape. *)
Theorem callback_undocumented_status_diagnostic (r : IncomingResponse)
    (op : Operation) (w : World) :
  is_server_error (status_code r) = false ->
  is_success (status_code r) = false ->
  responses op !! status_code r = None ->
  bitjws_response_callback r op w =
    (record (UnmarshalCall (status_code r)) w,
     Raise (HTTPError r
              (Some (not_found_message (status_code r) (operation_id op)))
              VNone)).
Proof. intros Hse _ Hdecl. by apply callback_undeclared. Qed.

End Triage.

Lemma callback_success_returns_unmarshalled_witness :
  bitjws_response_callback (H := reason_unmarshaller) ok_response getWidget
    empty_world =
  (record (UnmarshalCall 200) empty_world, Ok (VDict [("reason", VStr "{}")])).
Proof.
  apply (callback_success_returns_unmarshalled (U := reason_unmarshaller)
           ok_response getWidget (VDict []) empty_world); reflexivity.
Defined.

Lemma callback_server_error_minimal_witness :
  responses getWidget !! 503 = Some error_schema /\
  bitjws_response_callback (H := reason_unmarshaller) unavailable getWidget
    empty_world = (empty_world, Raise (HTTPError unavailable None VNone)).
Proof.
  split; [reflexivity |].
  apply (callback_server_error_minimal (U := reason_unmarshaller)
           unavailable getWidget empty_world); reflexivity.
Defined.

Lemma callback_documented_error_payload_witness :
  bitjws_response_callback (H := reason_unmarshaller) bad_request getWidget
    empty_world =
  (record (UnmarshalCall 400) empty_world,
   Raise (HTTPError bad_request None (VDict [("reason", VStr "bad input")]))).
Proof.
  apply (callback_documented_error_payload (U := reason_unmarshaller)
           bad_request getWidget error_schema empty_world); reflexivity.
Defined.

(** C5 as stated fails on a documented 503: the status is outside the
    success range and has a schema declared, the body unmarshals to
    [{"reason": "bad input"}], and the [HTTPError] raised has no payload. *)
Lemma callback_documented_error_payload_counterexample :
  is_success (status_code unavailable) = false /\
  responses getWidget !! status_code unavailable = Some error_schema /\
  unmarshal_schema_object (ResponseUnmarshaller := reason_unmarshaller)
    error_schema unavailable = VDict [("reason", VStr "bad input")] /\
  bitjws_response_callback (H := reason_unmarshaller) unavailable getWidget
    empty_world = (empty_world, Raise (HTTPError unavailable None VNone)) /\
  ~ (exists w' msg,
       bitjws_response_callback (H := reason_unmarshaller) unavailable
         getWidget empty_world =
       (w', Raise (HTTPError unavailable msg
                     (unmarshal_schema_object
                        (ResponseUnmarshaller := reason_unmarshaller)
                        error_schema unavailable)))).
Proof.
  repeat split; try reflexivity.
  intros (w' & msg & Heq). vm_compute in Heq. discriminate Heq.
Qed.

Lemma callback_undocumented_status_diagnostic_witness :
  bitjws_response_callback (H := reason_unmarshaller) not_found getWidget
    empty_world =
  (record (UnmarshalCall 404) empty_world,
   Raise (HTTPError not_found
            (Some "Response specification matching http status_code not found for operation getWidget")
            VNone)).
Proof.
  apply (callback_undocumented_status_diagnostic (U := reason_unmarshaller)
           not_found getWidget empty_world); reflexivity.
Defined.

(** ** Ordered dicts *)

Section Dict.
Context {V : Type}.
Implicit Types (d : dict V) (k j : string).

Lemma dict_pop_absent k d : k ∉ keys d -> (dict_pop k d).1 = None.
Proof.
  induction d as [|[k' v] d IH]; simpl; [done |].
  intros Hk. apply not_elem_of_cons in Hk as [Hne Hk].
  destruct (String.eqb_spec k k') as [->|_]; [done |].
  specialize (IH Hk). destruct (dict_pop k d). simpl in *. done.
Qed.

Lemma dict_pop_present k d : k ∈ keys d -> exists v, (dict_pop k d).1 = Some v.
Proof.
  induction d as [|[k' v] d IH]; simpl.
  - intros Hk. by apply elem_of_nil in Hk.
  - intros Hk. destruct (String.eqb_spec k k') as [->|Hne]; [by eexists |].
    apply elem_of_cons in Hk as [->|Hk]; [done |].
    destruct (IH Hk) as [x Hx]. destruct (dict_pop k d). simpl in *. eauto.
Qed.

(** Popping [k] keeps every binding of another key. *)
Lemma dict_pop_keeps k j (v : V) d :
  j ≠ k -> (j, v) ∈ d -> (j, v) ∈ (dict_pop k d).2.
Proof.
  intros Hne. induction d as [|[k' v'] d IH]; simpl; [done |].
  intros Hin. destruct (String.eqb_spec k k') as [->|Hne'].
  - apply elem_of_cons in Hin as [Heq|Hin]; [congruence | done].
  - destruct (dict_pop k d) as [r d'] eqn:E. simpl in *.
    apply elem_of_cons in Hin as [Heq|Hin]; [rewrite Heq; left |].
    right. by apply IH.
Qed.

(** Popping adds no binding. *)
Lemma dict_pop_subset k j (v : V) d :
  (j, v) ∈ (dict_pop k d).2 -> (j, v) ∈ d.
Proof.
  induction d as [|[k' v'] d IH]; simpl; [done |].
  destruct (String.eqb_spec k k') as [->|Hne'].
  - intros Hin. by right.
  - destruct (dict_pop k d) as [r d'] eqn:E. simpl in *.
    intros Hin. apply elem_of_cons in Hin as [Heq|Hin]; [rewrite Heq; left |].
    right. by apply IH.
Qed.

Lemma dict_pop_keys_ne k j d :
  j ≠ k -> j ∈ keys (dict_pop k d).2 <-> j ∈ keys d.
Proof.
  intros Hne. unfold keys. rewrite !list_elem_of_fmap. split.
  - intros ([j' v] & -> & Hin). exists (j', v). split; [done |].
    by eapply dict_pop_subset.
  - intros ([j' v] & -> & Hin). exists (j', v). split; [done |].
    by apply dict_pop_keeps.
Qed.

End Dict.

(** ** OperationAdapter: how marshalling runs *)

Lemma inserts_app (a b : list (string * value)) (d : gmap string value) :
  inserts (a ++ b)%list d = inserts b (inserts a d).
Proof. unfold inserts. apply fold_left_app. Qed.

Lemma write_headers_nil (l : nat) (w : World) : write_headers l [] w = w.
Proof.
  destruct w as [ds cs t e]. unfold write_headers. simpl.
  by rewrite list_alter_id.
Qed.

Lemma write_headers_app (l : nat) (a b : list (string * value)) (w : World) :
  write_headers l b (write_headers l a w) = write_headers l (a ++ b)%list w.
Proof.
  unfold write_headers. simpl. rewrite list_alter_alter_eq. f_equal.
  apply list_alter_ext; [|done]. intros d _. simpl. by rewrite inserts_app.
Qed.

Lemma write_headers_trace (l : nat) (writes : list (string * value))
    (w : World) :
  trace (write_headers l writes w) = trace w.
Proof. reflexivity. Qed.

Section Marshalling.
Context `{PM : ParamMarshaller}.

Lemma place_set_headers (p : Param) (v : value) (l : nat) (req : Request) :
  place p v (set_headers l req) = set_headers l (place p v req).
Proof. unfold place. by destruct (location p). Qed.

(** [marshal_param] never raises: it writes the header mapping or the
    request, by the parameter's location. *)
Lemma marshal_param_run (p : Param) (v : value) (req : Request) (w : World) :
  marshal_param p v req w =
    (write_headers (headers req) (header_writes p v) w, Ok (place p v req)).
Proof.
  unfold marshal_param, place, header_writes, wire_value.
  destruct (location p); simpl; unfold ret; rewrite ?write_headers_nil; done.
Qed.

(** The first loop, on a request whose header mapping is the object [l]:
    the writes to [l] and the outcome are the same for every store and
    every [l]. *)
Lemma marshal_supplied_run (op : Operation) (kwargs : dict value) :
  forall (cur : dict Param) (req : Request),
  exists (writes : list (string * value)) (out : Result (dict Param * Request)),
  forall (l : nat) (w : World),
    marshal_supplied op kwargs cur (set_headers l req) w =
      (write_headers l writes w,
       result_map (fun cr => (cr.1, set_headers l cr.2)) out).
Proof.
  induction kwargs as [|[k v] kwargs IH]; intros cur req; simpl.
  - exists [], (Ok (cur, req)). intros l w.
    by rewrite write_headers_nil.
  - destruct (dict_pop k cur) as [[p|] cur'].
    + destruct (IH cur' (place p v req)) as (ws & out & Hrun).
      exists (header_writes p v ++ ws)%list, out. intros l w.
      unfold bind. rewrite marshal_param_run, place_set_headers, Hrun.
      simpl. by rewrite write_headers_app.
    + eexists [], (Raise _). intros l w.
      rewrite write_headers_nil. reflexivity.
Qed.

Lemma marshal_remaining_run (remaining : list Param) :
  forall (req : Request),
  exists (writes : list (string * value)) (out : Result Request),
  forall (l : nat) (w : World),
    marshal_remaining remaining (set_headers l req) w =
      (write_headers l writes w, result_map (set_headers l) out).
Proof.
  induction remaining as [|p remaining IH]; intros req; simpl.
  - exists [], (Ok req). intros l w. by rewrite write_headers_nil.
  - destruct (required p); simpl.
    + eexists [], (Raise _). intros l w.
      rewrite write_headers_nil. reflexivity.
    + destruct (has_default p).
      * destruct (IH (place p VNone req)) as (ws & out & Hrun).
        exists (header_writes p VNone ++ ws)%list, out. intros l w.
        unfold bind. rewrite marshal_param_run, place_set_headers, Hrun.
        simpl. by rewrite write_headers_app.
      * apply IH.
Qed.

Lemma construct_params_run (op : Operation) (kwargs : dict value)
    (req : Request) :
  exists (writes : list (string * value)) (out : Result Request),
  forall (l : nat) (w : World),
    construct_params op (set_headers l req) kwargs w =
      (write_headers l writes w, result_map (set_headers l) out).
Proof.
  unfold construct_params.
  destruct (marshal_supplied_run op kwargs (params op) req)
    as (ws1 & [[cur req']|e] & Hrun1).
  - destruct (marshal_remaining_run (itervalues cur) req')
      as (ws2 & out & Hrun2).
    exists (ws1 ++ ws2)%list, out. intros l w.
    unfold bind. rewrite Hrun1. simpl.
    by rewrite Hrun2, write_headers_app.
  - exists ws1, (Raise e). intros l w.
    unfold bind. by rewrite Hrun1.
Qed.

End Marshalling.

(** ** OperationAdapter: what marshalling leaves alone *)

Section Shape.
Context `{PM : ParamMarshaller}.

Lemma marshalled_from_refl (req : Request) : marshalled_from req req.
Proof. repeat split. by exists []. Qed.

Lemma marshalled_from_trans (a b c : Request) :
  marshalled_from a b -> marshalled_from b c -> marshalled_from a c.
Proof.
  intros (Hm & Hh & Hc & Ht & fs & Hu) (Hm' & Hh' & Hc' & Ht' & fs' & Hu').
  repeat split; try congruence.
  exists (fs ++ fs')%list. unfold fill_paths in *.
  by rewrite fold_left_app, <- Hu.
Qed.

Lemma marshalled_from_place (p : Param) (v : value) (req : Request) :
  marshalled_from req (place p v req).
Proof.
  unfold place. destruct (location p); repeat split; simpl;
    try (by exists []).
  by exists [(name p, wire_value p v)].
Qed.

Lemma marshal_supplied_shape (op : Operation) (kwargs : dict value) :
  forall cur req w w' cur' req',
    marshal_supplied op kwargs cur req w = (w', Ok (cur', req')) ->
    marshalled_from req req'.
Proof.
  induction kwargs as [|[k v] kwargs IH]; intros cur req w w' cur' req'; simpl.
  - unfold ret. intros [= <- <- <-]. apply marshalled_from_refl.
  - destruct (dict_pop k cur) as [[p|] cur1]; [|discriminate].
    unfold bind. rewrite marshal_param_run. intros Hrun.
    eapply marshalled_from_trans; [apply marshalled_from_place |].
    eapply IH, Hrun.
Qed.

Lemma marshal_remaining_shape (remaining : list Param) :
  forall req w w' req',
    marshal_remaining remaining req w = (w', Ok req') ->
    marshalled_from req req'.
Proof.
  induction remaining as [|p remaining IH]; intros req w w' req'; simpl.
  - unfold ret. intros [= <- <-]. apply marshalled_from_refl.
  - destruct (required p); simpl; [discriminate |].
    destruct (has_default p).
    + unfold bind. rewrite marshal_param_run. intros Hrun.
      eapply marshalled_from_trans; [apply marshalled_from_place |].
      eapply IH, Hrun.
    + apply IH.
Qed.

(** The request [construct_request] returns has the operation's method in
    upper case, the options' timeouts, and the joined url with path
    parameters filled in. *)
Lemma construct_request_shape (op : Operation) (kw : Kwargs) (w w' : World)
    (req : Request) :
  construct_request op kw w = (w', Ok req) ->
  method req = upper (http_method op) /\
  connect_timeout req =
    opt_connect_timeout (default no_options (request_options kw)) /\
  timeout req = opt_timeout (default no_options (request_options kw)) /\
  exists fills,
    url req = fill_paths fills
                (rstrip_slash (api_url (swagger_spec op)) +:+ path_name op).
Proof.
  unfold construct_request, construct_params, bind.
  destruct (match opt_headers _ with Some h => ret h | None => new_dict ∅ end w)
    as [w0 [l|e]] eqn:Hl; [|discriminate].
  destruct (marshal_supplied _ _ _ _ w0) as [w1 [[cur req1]|e]] eqn:H1;
    [|discriminate].
  intros H2.
  apply marshal_supplied_shape in H1. apply marshal_remaining_shape in H2.
  destruct (marshalled_from_trans _ _ _ H1 H2) as (Hm & _ & Hc & Ht & Hu).
  simpl in *. auto.
Qed.

End Shape.

(** ** OperationAdapter: the request as a function of operation and kwargs *)

(** An assignment hides an earlier assignment to the same key. *)
Lemma insert_inserts_insert (writes : list (string * value)) :
  forall (k : string) (v v' : value) (d : gmap string value),
    <[k := v]> (inserts writes (<[k := v']> d)) = <[k := v]> (inserts writes d).
Proof.
  induction writes as [|[k1 v1] writes IH]; intros k v v' d; simpl.
  - apply insert_insert_eq.
  - destruct (decide (k1 = k)) as [->|Hne].
    + by rewrite insert_insert_eq.
    + rewrite (insert_insert_ne d k1 k) by done. apply IH.
Qed.

(** Repeating a sequence of assignments changes nothing. *)
Lemma inserts_idempotent (writes : list (string * value))
    (d : gmap string value) :
  inserts writes (inserts writes d) = inserts writes d.
Proof.
  induction writes as [|[k v] writes IH] using rev_ind; [done |].
  rewrite !inserts_app. simpl.
  by rewrite insert_inserts_insert, IH.
Qed.

Section Determinism.
Context `{PM : ParamMarshaller}.

(** The writes to the header object and the outcome of [construct_request]
    are fixed by the operation and the kwargs: the store only says where
    the header object is. *)
Lemma construct_request_run (op : Operation) (kw : Kwargs) :
  exists (writes : list (string * value)) (out : Result Request),
  forall (w : World),
    construct_request op kw w =
      (write_headers (headers_object kw w) writes (with_headers_object kw w),
       result_map (set_headers (headers_object kw w)) out).
Proof.
  unfold construct_request, headers_object, with_headers_object.
  set (opts := default no_options (request_options kw)).
  set (req0 := mkRequest (upper (http_method op))
                 (rstrip_slash (api_url (swagger_spec op)) +:+ path_name op)
                 ∅ 0%nat (opt_connect_timeout opts) (opt_timeout opts) None).
  destruct (construct_params_run op (args kw) req0) as (writes & out & Hrun).
  exists writes, out. intros w.
  destruct (opt_headers opts) as [l|]; unfold bind, ret, new_dict; simpl.
  - apply (Hrun l w).
  - apply (Hrun (length (dicts w))).
Qed.

(** [construct_request] adds nothing to the trace and leaves the transports
    and the RNG alone. *)
Lemma construct_request_quiet (op : Operation) (kw : Kwargs) (w : World) :
  trace (construct_request op kw w).1 = trace w /\
  clients (construct_request op kw w).1 = clients w /\
  entropy (construct_request op kw w).1 = entropy w.
Proof.
  destruct (construct_request_run op kw) as (writes & out & Hrun).
  rewrite Hrun. unfold with_headers_object.
  by destruct (opt_headers _).
Qed.

(** Whether and how [construct_request] fails does not depend on the
    store. *)
Lemma construct_request_raise_any_store (op : Operation) (kw : Kwargs)
    (w w' : World) (e : Exn) :
  (construct_request op kw w).2 = Raise e ->
  (construct_request op kw w').2 = Raise e.
Proof.
  destruct (construct_request_run op kw) as (writes & out & Hrun).
  rewrite !Hrun. simpl. by destruct out.
Qed.

(** The header mapping after the call: the writes applied to what the
    header object held before (nothing, for a new object). *)
Lemma construct_request_headers (op : Operation) (kw : Kwargs) :
  exists (writes : list (string * value)),
  forall (w : World),
    deref (construct_request op kw w).1 (headers_object kw w) =
      match opt_headers (default no_options (request_options kw)) with
      | Some l => if decide (l < length (dicts w))%nat
                  then inserts writes (deref w l) else ∅
      | None => inserts writes ∅
      end.
Proof.
  destruct (construct_request_run op kw) as (writes & out & Hrun).
  exists writes. intros w. rewrite Hrun.
  unfold headers_object, with_headers_object, deref, write_headers.
  destruct (opt_headers _) as [l|]; simpl.
  - rewrite list_lookup_total_alter. case_decide as Hl.
    + rewrite decide_True by lia. done.
    + rewrite decide_False by lia.
      rewrite list_lookup_total_alt, lookup_ge_None_2 by lia. done.
  - rewrite alter_app_r_alt, Nat.sub_diag by lia. simpl.
    by rewrite lookup_total_app_r, Nat.sub_diag by lia.
Qed.

End Determinism.

Section DeterminismTheorem.
Context `{PM : ParamMarshaller}.

(** [construct_request] called twice in a row with the same operation and
    the same kwargs (the same objects, among them the caller's headers
    dict that the first call has written to) gives the same outcome: the
    same error, or requests with the same method, url, query parameters,
    header mapping, timeouts and body. *)
Lemma construct_request_repeat (op : Operation) (kw : Kwargs) (w : World) :
  let first := construct_request op kw w in
  let second := construct_request op kw first.1 in
  result_map (describe first.1) first.2 =
    result_map (describe second.1) second.2.
Proof.
  intros first second. subst second first.
  destruct (construct_request_headers op kw) as (ws & Hhdr).
  pose proof (Hhdr w) as H1.
  pose proof (Hhdr (construct_request op kw w).1) as H2.
  destruct (construct_request_run op kw) as (writes & out & Hrun).
  assert (Hlen : forall l,
            opt_headers (default no_options (request_options kw)) = Some l ->
            length (dicts (construct_request op kw w).1) = length (dicts w)).
  { intros l Hl. rewrite Hrun.
    unfold with_headers_object, write_headers. rewrite Hl. simpl.
    apply length_alter. }
  rewrite (Hrun (construct_request op kw w).1) in *.
  rewrite (Hrun w) in *. simpl in *.
  destruct out as [req|e]; simpl; [|done].
  unfold describe. simpl.
  rewrite H2. clear H2.
  unfold headers_object in *.
  destruct (opt_headers (default no_options (request_options kw)))
    as [l|] eqn:Hl; [|by rewrite H1].
  rewrite (Hlen l eq_refl). rewrite H1.
  case_decide; [|done].
  by rewrite inserts_idempotent.
Qed.

End DeterminismTheorem.

(** ** OperationAdapter: mapping errors *)

Lemma find_ext_elem {A} (f g : A -> bool) (l : list A) :
  (forall x, x ∈ l -> f x = g x) -> List.find f l = List.find g l.
Proof.
  induction l as [|a l IH]; simpl; [done |].
  intros Hfg. rewrite (Hfg a) by left.
  destruct (g a); [done |]. apply IH. intros x Hx. apply Hfg. by right.
Qed.

Section MappingErrors.
Context `{PM : ParamMarshaller}.

(** The first loop stops at the first keyword that names no parameter. *)
Lemma marshal_supplied_unknown (op : Operation) (kwargs : dict value) :
  forall cur req w k',
    NoDup (keys kwargs) ->
    List.find (fun k => negb (bool_decide (k ∈ keys cur))) (keys kwargs)
      = Some k' ->
    (marshal_supplied op kwargs cur req w).2 =
      Raise (SwaggerMappingError (unknown_parameter_message op k')).
Proof.
  induction kwargs as [|[k v] kwargs IH]; intros cur req w k' Hnd; simpl;
    [done |].
  apply NoDup_cons in Hnd as [Hk Hnd].
  case_bool_decide as Hin; simpl.
  - intros Hfind. destruct (dict_pop_present k cur Hin) as [p Hp].
    destruct (dict_pop k cur) as [r cur1] eqn:Hpop. simpl in Hp. subst r.
    unfold bind. rewrite marshal_param_run. apply IH; [done |].
    rewrite <- Hfind. apply find_ext_elem. intros j Hj. f_equal.
    apply bool_decide_ext.
    replace cur1 with (dict_pop k cur).2 by (by rewrite Hpop).
    apply dict_pop_keys_ne. intros ->. done.
  - intros [= <-]. pose proof (dict_pop_absent k cur Hin) as Hp.
    destruct (dict_pop k cur) as [r cur1]. simpl in Hp. by subst r.
Qed.

(** With every keyword declared the first loop ends well; what it leaves
    in [current_params] is declared, and holds every declared parameter
    that no keyword names. *)
Lemma marshal_supplied_known (op : Operation) (kwargs : dict value) :
  forall cur req w,
    NoDup (keys kwargs) ->
    List.find (fun k => negb (bool_decide (k ∈ keys cur))) (keys kwargs)
      = None ->
    exists w' cur' req',
      marshal_supplied op kwargs cur req w = (w', Ok (cur', req')) /\
      (forall j p, (j, p) ∈ cur' -> (j, p) ∈ cur).
Proof.
  induction kwargs as [|[k v] kwargs IH]; intros cur req w Hnd; simpl.
  - intros _. by exists w, cur, req.
  - apply NoDup_cons in Hnd as [Hk Hnd].
    case_bool_decide as Hin; simpl; [|done].
    intros Hfind. destruct (dict_pop_present k cur Hin) as [p Hp].
    destruct (dict_pop k cur) as [r cur1] eqn:Hpop. simpl in Hp. subst r.
    assert (Hcur1 : cur1 = (dict_pop k cur).2) by (by rewrite Hpop).
    unfold bind. rewrite marshal_param_run.
    edestruct (IH cur1) as (w' & cur' & req' & Hrun & Hsub); [done | |].
    + rewrite <- Hfind. apply find_ext_elem. intros j Hj. f_equal.
      apply bool_decide_ext. rewrite Hcur1.
      apply dict_pop_keys_ne. intros ->. done.
    + exists w', cur', req'. split; [exact Hrun |].
      intros j q Hjq. apply (dict_pop_subset k). rewrite <- Hcur1. auto.
Qed.

(** Whatever the keywords, the first loop raises a mapping error or keeps
    every declared parameter that no keyword names. *)
Lemma marshal_supplied_keeps (op : Operation) (kwargs : dict value) :
  forall cur req w,
    match (marshal_supplied op kwargs cur req w).2 with
    | Raise e => exists msg, e = SwaggerMappingError msg
    | Ok (cur', _) =>
        forall j p, (j, p) ∈ cur -> j ∉ keys kwargs -> (j, p) ∈ cur'
    end.
Proof.
  induction kwargs as [|[k v] kwargs IH]; intros cur req w; simpl; [done |].
  destruct (dict_pop k cur) as [[p|] cur1] eqn:Hpop; simpl; [|by eexists].
  unfold bind. rewrite marshal_param_run.
  specialize (IH cur1 (place p v req)
                (write_headers (headers req) (header_writes p v) w)).
  destruct (marshal_supplied op kwargs cur1 _ _) as [w' [[cur' req']|e]];
    simpl in *; [|done].
  intros j q Hjq Hj. apply not_elem_of_cons in Hj as [Hne Hj].
  apply IH; [|done].
  replace cur1 with (dict_pop k cur).2 by (by rewrite Hpop).
  by apply dict_pop_keeps.
Qed.

(** The second loop raises at the first required parameter left. *)
Lemma marshal_remaining_required (remaining : list Param) :
  forall req w p,
    p ∈ remaining -> required p = true ->
    exists p', p' ∈ remaining /\ required p' = true /\
      (marshal_remaining remaining req w).2 =
        Raise (SwaggerMappingError (required_parameter_message p')).
Proof.
  induction remaining as [|q remaining IH]; intros req w p Hin Hreq; simpl.
  - by apply elem_of_nil in Hin.
  - destruct (required q) eqn:Hq; simpl.
    + exists q. repeat split; [left | done].
    + assert (Hp : p ∈ remaining).
      { apply elem_of_cons in Hin as [->|Hin]; [congruence | done]. }
      destruct (has_default q).
      * unfold bind. rewrite marshal_param_run.
        edestruct IH as (p' & Hp' & Hr' & Hrun); [exact Hp | exact Hreq |].
        exists p'. repeat split; [by right | done | exact Hrun].
      * edestruct IH as (p' & Hp' & Hr' & Hrun); [exact Hp | exact Hreq |].
        exists p'. repeat split; [by right | done | exact Hrun].
Qed.

(** [construct_request] is [construct_params] on the initial request. *)
Lemma construct_request_params (op : Operation) (kw : Kwargs) (w : World) :
  exists req w0,
    construct_request op kw w = construct_params op req (args kw) w0.
Proof.
  unfold construct_request, bind.
  destruct (opt_headers _); simpl; eexists _, _; reflexivity.
Qed.

(** An unknown keyword decides the outcome before anything else does. *)
Lemma construct_request_unknown (op : Operation) (kw : Kwargs) (w : World)
    (k' : string) :
  NoDup (keys (args kw)) ->
  first_unknown op (args kw) = Some k' ->
  (construct_request op kw w).2 =
    Raise (SwaggerMappingError (unknown_parameter_message op k')).
Proof.
  intros Hnd Hfind.
  destruct (construct_request_params op kw w) as (req & w0 & ->).
  unfold construct_params, bind.
  pose proof (marshal_supplied_unknown op (args kw) (params op) req w0 k'
                Hnd Hfind) as Hrun.
  destruct (marshal_supplied _ _ _ _ _) as [w1 r]. simpl in Hrun. by subst r.
Qed.

(** A required parameter that no keyword names makes [construct_request]
    raise a mapping error. *)
Lemma construct_request_missing_required (op : Operation) (kw : Kwargs)
    (w : World) (k : string) (p : Param) :
  (k, p) ∈ params op -> required p = true -> k ∉ keys (args kw) ->
  exists msg, (construct_request op kw w).2 = Raise (SwaggerMappingError msg).
Proof.
  intros Hin Hreq Hk.
  destruct (construct_request_params op kw w) as (req & w0 & ->).
  unfold construct_params, bind.
  pose proof (marshal_supplied_keeps op (args kw) (params op) req w0) as Hkeep.
  destruct (marshal_supplied _ _ _ _ _) as [w1 [[cur' req']|e]]; simpl in *.
  - specialize (Hkeep k p Hin Hk).
    edestruct (marshal_remaining_required (itervalues cur') req' w1 p)
      as (p' & _ & _ & Hrun); [| exact Hreq | by eexists].
    unfold itervalues. apply list_elem_of_fmap. by exists (k, p).
  - destruct Hkeep as [msg ->]. by eexists.
Qed.

End MappingErrors.

Section MappingTheorems.
Context `{PM : ParamMarshaller}.

(** With every keyword declared, a required parameter that no keyword
    names is reported by the second loop. *)
Lemma construct_request_required (op : Operation) (kw : Kwargs) (w : World)
    (k : string) (p : Param) :
  NoDup (keys (args kw)) ->
  first_unknown op (args kw) = None ->
  (k, p) ∈ params op -> required p = true -> k ∉ keys (args kw) ->
  exists p', p' ∈ itervalues (params op) /\ required p' = true /\
    (construct_request op kw w).2 =
      Raise (SwaggerMappingError (required_parameter_message p')).
Proof.
  intros Hnd Hfind Hin Hreq Hk.
  destruct (construct_request_params op kw w) as (req & w0 & ->).
  unfold construct_params, bind.
  destruct (marshal_supplied_known op (args kw) (params op) req w0 Hnd Hfind)
    as (w1 & cur' & req' & Hrun & Hsub).
  pose proof (marshal_supplied_keeps op (args kw) (params op) req w0) as Hkeep.
  rewrite Hrun in *. simpl in Hkeep.
  edestruct (marshal_remaining_required (itervalues cur') req' w1 p)
    as (p' & Hp' & Hr' & Hraise); [| exact Hreq |].
  { unfold itervalues. apply list_elem_of_fmap. exists (k, p). auto. }
  exists p'. repeat split; [| done | exact Hraise].
  unfold itervalues in *. apply list_elem_of_fmap in Hp' as ([j q] & -> & Hjq).
  apply list_elem_of_fmap. exists (j, q). auto.
Qed.

(** A call whose request construction fails hands nothing to the
    transport. *)
Lemma call_raises (op : Operation) (kw : Kwargs) (w : World) (e : Exn) :
  (forall w0, (construct_request op kw w0).2 = Raise e) ->
  exists w',
    call op kw w = (w', Raise e) /\
    List.filter network_io (trace w') = List.filter network_io (trace w).
Proof.
  intros Hraise. unfold call, bind, emit, warn_for_deprecated_op.
  set (w0 := record (LogCall (operation_id op) kw) w).
  assert (Hw0 : List.filter network_io (trace w0)
                = List.filter network_io (trace w)).
  { subst w0. simpl. rewrite List.filter_app. simpl. apply app_nil_r. }
  destruct (deprecated op); simpl.
  - set (w1 := record (DeprecationWarning (operation_id op)) w0).
    pose proof (Hraise w1) as Hr.
    pose proof (construct_request_quiet op kw w1) as (Ht & _).
    destruct (construct_request op kw w1) as [w2 r]. simpl in *. subst r.
    exists w2. split; [done |]. rewrite Ht. subst w1. simpl.
    rewrite List.filter_app. simpl. by rewrite app_nil_r.
  - unfold ret. pose proof (Hraise w0) as Hr.
    pose proof (construct_request_quiet op kw w0) as (Ht & _).
    destruct (construct_request op kw w0) as [w2 r]. simpl in *. subst r.
    exists w2. split; [done |]. by rewrite Ht.
Qed.

(** C3: when a required declared parameter is named by no keyword,
    whichever it is, [construct_request] raises a [SwaggerMappingError],
    and the call raises it with no request handed to the transport: the
    trace holds no more network I/O than before. *)
Theorem missing_required_raises_mapping_error (op : Operation) (kw : Kwargs)
    (w : World) (k : string) (p : Param) :
  (k, p) ∈ params op -> required p = true -> k ∉ keys (args kw) ->
  exists msg w1 w2,
    construct_request op kw w = (w1, Raise (SwaggerMappingError msg)) /\
    trace w1 = trace w /\
    call op kw w = (w2, Raise (SwaggerMappingError msg)) /\
    List.filter network_io (trace w2) = List.filter network_io (trace w).
Proof.
  intros Hin Hreq Hk.
  destruct (construct_request_missing_required op kw w k p Hin Hreq Hk)
    as [msg Hmsg].
  destruct (call_raises op kw w (SwaggerMappingError msg)) as (w2 & Hc & Ht).
  { intros w0. by apply (construct_request_raise_any_store op kw w). }
  pose proof (construct_request_quiet op kw w) as (Hq & _).
  destruct (construct_request op kw w) as [w1 r]. simpl in *. subst r.
  by exists msg, w1, w2.
Qed.

(** C4 (amended): when the keywords of a call, the reserved
    [_request_options] apart, contain one that names no declared
    parameter, [construct_request] raises a [SwaggerMappingError] whose
    message names the first such keyword in call order; that is the given
    keyword when every other keyword names a declared parameter. *)
Theorem unknown_keyword_raises_naming_first (op : Operation) (kw : Kwargs)
    (w : World) (k : string) :
  well_formed_kwargs kw ->
  k ∈ keys (args kw) -> k ∉ keys (params op) ->
  exists k' w',
    first_unknown op (args kw) = Some k' /\
    construct_request op kw w =
      (w', Raise (SwaggerMappingError (unknown_parameter_message op k'))) /\
    ((forall j, j ∈ keys (args kw) -> j ≠ k -> j ∈ keys (params op)) ->
     k' = k).
Proof.
  intros [Hnd _] Hk Hunknown.
  destruct (first_unknown op (args kw)) as [k'|] eqn:Hfind.
  - pose proof (construct_request_unknown op kw w k' Hnd Hfind) as Hrun.
    destruct (construct_request op kw w) as [w' r]. simpl in Hrun. subst r.
    exists k', w'. repeat split.
    intros Hothers. apply List.find_some in Hfind as [Hin Hneg].
    apply list_elem_of_In in Hin. destruct (decide (k' = k)); [done |].
    rewrite bool_decide_eq_true_2 in Hneg by auto. done.
  - exfalso. apply list_elem_of_In in Hk.
    pose proof (List.find_none _ _ Hfind k Hk) as Hneg. simpl in Hneg.
    rewrite bool_decide_eq_false_2 in Hneg by done. done.
Qed.

(** C7 (amended): the keywords are processed first and the declared
    parameters they leave are checked afterwards.  When a required
    parameter is named by no keyword, the error is the unknown-parameter
    one for the first unknown keyword if there is an unknown keyword, and
    the required-parameter one, for a required declared parameter, only
    if every keyword names a declared parameter. *)
Theorem kwargs_checked_before_required (op : Operation) (kw : Kwargs)
    (w : World) (k : string) (p : Param) :
  well_formed_kwargs kw ->
  (k, p) ∈ params op -> required p = true -> k ∉ keys (args kw) ->
  match first_unknown op (args kw) with
  | Some u =>
      (construct_request op kw w).2 =
        Raise (SwaggerMappingError (unknown_parameter_message op u))
  | None =>
      exists p', p' ∈ itervalues (params op) /\ required p' = true /\
        (construct_request op kw w).2 =
          Raise (SwaggerMappingError (required_parameter_message p'))
  end.
Proof.
  intros [Hnd _] Hin Hreq Hk.
  destruct (first_unknown op (args kw)) as [u|] eqn:Hfind.
  - by apply construct_request_unknown.
  - by apply (construct_request_required op kw w k p).
Qed.

End MappingTheorems.

(** ** OperationAdapter: the theorems on [getWidget] *)

Lemma missing_required_raises_mapping_error_witness :
  exists msg w1 w2,
    construct_request (H := plain_marshaller) getWidget kw_missing_id
      empty_world = (w1, Raise (SwaggerMappingError msg)) /\
    trace w1 = trace empty_world /\
    call (H := plain_marshaller) getWidget kw_missing_id empty_world =
      (w2, Raise (SwaggerMappingError msg)) /\
    List.filter network_io (trace w2) =
      List.filter network_io (trace empty_world).
Proof.
  apply (missing_required_raises_mapping_error (PM := plain_marshaller)
           getWidget kw_missing_id empty_world "id" id_param).
  - left.
  - reflexivity.
  - by_evaluation.
Defined.

Lemma unknown_keyword_raises_naming_first_witness :
  exists k' w',
    first_unknown getWidget (args kw_two_unknown) = Some k' /\
    construct_request (H := plain_marshaller) getWidget kw_two_unknown
      empty_world =
      (w', Raise (SwaggerMappingError
                    (unknown_parameter_message getWidget k'))) /\
    ((forall j, j ∈ keys (args kw_two_unknown) -> j ≠ "foo" ->
                j ∈ keys (params getWidget)) ->
     k' = "foo").
Proof.
  apply (unknown_keyword_raises_naming_first (PM := plain_marshaller)
           getWidget kw_two_unknown empty_world "foo").
  - split; by_evaluation.
  - by_evaluation.
  - by_evaluation.
Defined.

(** C4 as stated fails when two keywords are unknown: [bar] names no
    declared parameter of [getWidget], yet the message names [foo], the
    unknown keyword that comes first, and does not mention [bar]. *)
Lemma unknown_keyword_named_counterexample :
  well_formed_kwargs kw_two_unknown /\
  ("bar" ∈ keys (args kw_two_unknown)) /\
  "bar" ≠ "_request_options" /\
  ("bar" ∉ keys (params getWidget)) /\
  (construct_request (H := plain_marshaller) getWidget kw_two_unknown
     empty_world).2 =
    Raise (SwaggerMappingError "getWidget does not have parameter foo") /\
  String.index 0 "bar" "getWidget does not have parameter foo" = None /\
  ~ (exists w',
       construct_request (H := plain_marshaller) getWidget kw_two_unknown
         empty_world =
       (w', Raise (SwaggerMappingError
                     (unknown_parameter_message getWidget "bar")))).
Proof.
  split; [split; by_evaluation |].
  split; [by_evaluation |]. split; [done |]. split; [by_evaluation |].
  split; [reflexivity |]. split; [reflexivity |].
  intros (w' & Heq). vm_compute in Heq. discriminate Heq.
Qed.

Lemma kwargs_checked_before_required_witness :
  (construct_request (H := plain_marshaller) getWidget kw_bogus
     empty_world).2 =
    Raise (SwaggerMappingError (unknown_parameter_message getWidget "bogus")).
Proof.
  apply (kwargs_checked_before_required (PM := plain_marshaller)
           getWidget kw_bogus empty_world "id" id_param).
  - split; by_evaluation.
  - left.
  - reflexivity.
  - by_evaluation.
Defined.

(** C7 as stated fails: [kw_bogus] omits the required [id] and carries the
    unknown [bogus]; the error raised is the unknown-parameter one, not
    the required-parameter one. *)
Lemma required_checked_first_counterexample :
  well_formed_kwargs kw_bogus /\
  (("id", id_param) ∈ params getWidget) /\
  required id_param = true /\
  ("id" ∉ keys (args kw_bogus)) /\
  ("bogus" ∈ keys (args kw_bogus)) /\
  ("bogus" ∉ keys (params getWidget)) /\
  (construct_request (H := plain_marshaller) getWidget kw_bogus
     empty_world).2 =
    Raise (SwaggerMappingError "getWidget does not have parameter bogus") /\
  (construct_request (H := plain_marshaller) getWidget kw_bogus
     empty_world).2 <>
    Raise (SwaggerMappingError (required_parameter_message id_param)).
Proof.
  split; [split; by_evaluation |].
  split; [left |]. split; [reflexivity |].
  split; [by_evaluation |]. split; [by_evaluation |].
  split; [by_evaluation |]. split; [reflexivity |].
  vm_compute. discriminate.
Qed.

(** With every keyword declared and [id] left out, the second loop
    reports [id]. *)
Example construct_request_reports_missing_id :
  (construct_request (H := plain_marshaller) getWidget kw_missing_id
     empty_world).2 =
  Raise (SwaggerMappingError "id is a required parameter").
Proof. reflexivity. Qed.

(** The header parameter is written into the caller's own dict. *)
Example construct_request_writes_caller_headers :
  deref (construct_request (H := plain_marshaller) getWidget kw_traced
           caller_world).1 0 =
  <["X-Trace" := VStr "on"]> {[ "Accept" := VStr "json" ]}.
Proof. by vm_compute. Qed.

(** The request built for [kw_traced], as the transport sees it. *)
Example construct_request_traced :
  result_map (describe (construct_request (H := plain_marshaller) getWidget
                          kw_traced caller_world).1)
             (construct_request (H := plain_marshaller) getWidget kw_traced
                caller_world).2 =
  Ok (mkDescription "GET" "http://widgets.example/api/widgets/5" ∅
        (<["X-Trace" := VStr "on"]> {[ "Accept" := VStr "json" ]})
        None (Some (VInt 30)) None).
Proof. by vm_compute. Qed.

(** ** ClientFacade: theorems *)

Section Facade.
Context `{SP : SigningPrimitive} `{SL : SpecLoader}.

(** Resolving the [privkey] argument touches nothing but the RNG. *)
Lemma privkey_or_new_run (privkey : PrivkeyArg) (w : World) :
  usable_privkey privkey ->
  exists key n,
    privkey_or_new privkey w =
      (mkWorld (dicts w) (clients w) (trace w) n, Ok key).
Proof.
  destruct privkey as [|s|key]; simpl.
  - intros _. by eexists _, _.
  - intros [secret Hs]. unfold private_key_of_wif. rewrite Hs.
    exists (mkPrivateKey secret), (entropy w). by destruct w.
  - intros _. exists key, (entropy w). by destruct w.
Qed.

(** With a transport supplied, [from_spec] is [Spec.from_dict] on that
    transport, whatever the key. *)
Lemma from_spec_supplied_run (spec_dict : value) (origin_url : option string)
    (hc : nat) (config : option value)
    (resource_decorator : option ResourceDecorator) (privkey : PrivkeyArg)
    (w : World) :
  usable_privkey privkey ->
  exists n,
    from_spec spec_dict origin_url (Some hc) config resource_decorator
      privkey w =
    (mkWorld (dicts w) (clients w) (trace w) n,
     result_map (client_of resource_decorator)
                (from_dict spec_dict origin_url hc config)).
Proof.
  intros Hpk. destruct (privkey_or_new_run privkey w Hpk) as (key & n & Hrun).
  exists n. unfold from_spec, bind. rewrite Hrun. simpl.
  unfold lift, ret. by destruct (from_dict _ _ _ _).
Qed.

(** With a transport supplied, [from_url] fetches the document through
    that transport and builds the spec on it, whatever the key. *)
Lemma from_url_supplied_run (spec_url : string) (hc : nat)
    (request_headers : option (gmap string value)) (config : option value)
    (resource_decorator : option ResourceDecorator) (privkey : PrivkeyArg)
    (w : World) :
  usable_privkey privkey ->
  exists n,
    from_url spec_url (Some hc) request_headers config resource_decorator
      privkey w =
    (mkWorld (dicts w) (clients w)
             (trace w ++ [LogLoading spec_url; FetchSpec hc spec_url]) n,
     match load_spec (clients w !!! hc) request_headers spec_url with
     | Ok spec_dict =>
         result_map (client_of resource_decorator)
                    (from_dict spec_dict (Some spec_url) hc config)
     | Raise e => Raise e
     end).
Proof.
  intros Hpk. unfold from_url, bind, emit.
  destruct (privkey_or_new_run privkey (record (LogLoading spec_url) w) Hpk)
    as (key & n & Hrun).
  exists n. rewrite Hrun. simpl. unfold loader_load_spec, bind, emit. simpl.
  unfold record. simpl. rewrite <- app_assoc. simpl.
  destruct (load_spec _ _ _) as [spec_dict|e]; [|done].
  unfold from_spec, bind, lift, ret. simpl.
  by destruct (from_dict _ _ _ _).
Qed.

(** C9: with a transport supplied by the caller, two runs of [from_spec],
    or of [from_url], that differ only in the [privkey] argument (absent,
    a WIF string, a key object) end alike: the same client or the same
    failure, the same events, and the transports of the store as they
    were, so that no key has been registered with any of them. *)
Theorem supplied_http_client_ignores_privkey (hc : nat)
    (spec_dict : value) (origin_url : option string) (spec_url : string)
    (request_headers : option (gmap string value)) (config : option value)
    (resource_decorator : option ResourceDecorator)
    (privkey1 privkey2 : PrivkeyArg) (w : World) :
  usable_privkey privkey1 -> usable_privkey privkey2 ->
  let s1 := from_spec spec_dict origin_url (Some hc) config
              resource_decorator privkey1 w in
  let s2 := from_spec spec_dict origin_url (Some hc) config
              resource_decorator privkey2 w in
  let u1 := from_url spec_url (Some hc) request_headers config
              resource_decorator privkey1 w in
  let u2 := from_url spec_url (Some hc) request_headers config
              resource_decorator privkey2 w in
  (s1.2 = s2.2 /\ trace s1.1 = trace s2.1 /\
   clients s1.1 = clients w /\ clients s2.1 = clients w) /\
  (u1.2 = u2.2 /\ trace u1.1 = trace u2.1 /\
   clients u1.1 = clients w /\ clients u2.1 = clients w).
Proof.
  intros Hpk1 Hpk2. simpl.
  destruct (from_spec_supplied_run spec_dict origin_url hc config
              resource_decorator privkey1 w Hpk1) as (n1 & ->).
  destruct (from_spec_supplied_run spec_dict origin_url hc config
              resource_decorator privkey2 w Hpk2) as (n2 & ->).
  destruct (from_url_supplied_run spec_url hc request_headers config
              resource_decorator privkey1 w Hpk1) as (m1 & ->).
  destruct (from_url_supplied_run spec_url hc request_headers config
              resource_decorator privkey2 w Hpk2) as (m2 & ->).
  done.
Qed.

(** Without a transport and without an origin url, [from_spec] resolves
    the host of the absent url first; when the url parser raises on it,
    so does [from_spec], and no transport has been created. *)
Lemma from_spec_default_origin_raises (spec_dict : value)
    (config : option value) (resource_decorator : option ResourceDecorator)
    (privkey : PrivkeyArg) (w : World) (e : Exn) :
  usable_privkey privkey ->
  hostname_of None = Raise e ->
  exists w',
    from_spec spec_dict None None config resource_decorator privkey w =
      (w', Raise e) /\
    clients w' = clients w.
Proof.
  intros Hpk Hhost.
  destruct (privkey_or_new_run privkey w Hpk) as (key & n & Hrun).
  unfold from_spec, bind. rewrite Hrun. simpl.
  unfold lift, bind. rewrite Hhost. by eexists.
Qed.

(** When the url parser answers for the absent url, [from_spec] goes on:
    it creates a signing transport, registers the key for the host the
    parser gave, and returns a client if the spec builds. *)
Lemma from_spec_default_origin_builds (spec_dict : value)
    (config : option value) (resource_decorator : option ResourceDecorator)
    (privkey : PrivkeyArg) (w : World) (host : option string) (s : Spec) :
  usable_privkey privkey ->
  hostname_of None = Ok host ->
  from_dict spec_dict None (length (clients w)) config = Ok s ->
  exists w' wif,
    from_spec spec_dict None None config resource_decorator privkey w =
      (w', Ok (client_of resource_decorator s)) /\
    clients w' = (clients w ++ [mkClient {[ host := wif ]}])%list.
Proof.
  intros Hpk Hhost Hspec.
  destruct (privkey_or_new_run privkey w Hpk) as (key & n & Hrun).
  unfold from_spec, bind. rewrite Hrun. simpl.
  unfold lift, bind. rewrite Hhost. simpl. rewrite Hspec. simpl.
  eexists _, (privkey_to_wif (private_key key)). split; [reflexivity |].
  simpl. rewrite alter_app_r_alt, Nat.sub_diag by lia. simpl.
  by rewrite insert_empty.
Qed.

End Facade.

Lemma supplied_http_client_ignores_privkey_witness :
  let SP := tagged_signing in
  let SL := widget_loader (Ok None) in
  let s1 := from_spec (VDict []) None (Some 0%nat) None None NoPrivkey
              transport_world in
  let s2 := from_spec (VDict []) None (Some 0%nat) None None
              (WifString "wif:5Kb8kLf9") transport_world in
  let u1 := from_url "http://widgets.example/swagger.json" (Some 0%nat) None
              None None NoPrivkey transport_world in
  let u2 := from_url "http://widgets.example/swagger.json" (Some 0%nat) None
              None None (WifString "wif:5Kb8kLf9") transport_world in
  (s1.2 = s2.2 /\ trace s1.1 = trace s2.1 /\
   clients s1.1 = clients transport_world /\
   clients s2.1 = clients transport_world) /\
  (u1.2 = u2.2 /\ trace u1.1 = trace u2.1 /\
   clients u1.1 = clients transport_world /\
   clients u2.1 = clients transport_world).
Proof.
  apply (supplied_http_client_ignores_privkey (SP := tagged_signing)
           (SL := widget_loader (Ok None)) 0%nat (VDict []) None
           "http://widgets.example/swagger.json" None None None
           NoPrivkey (WifString "wif:5Kb8kLf9") transport_world).
  - exact I.
  - eexists. reflexivity.
Defined.

(** Without a transport, the key does reach one: the new transport holds
    the WIF of the key for the host of the url. *)
Example from_url_registers_key :
  clients (from_url (H := tagged_signing) (H0 := widget_loader (Ok None))
             "http://widgets.example/swagger.json" None None None None
             (WifString "wif:5Kb8kLf9") empty_world).1 =
  [mkClient {[ Some "widgets.example" := "wif:5Kb8kLf9" ]}].
Proof. by vm_compute. Qed.

(** [from_spec] with neither transport nor origin url, under a url parser
    that raises on the absent url and under one that answers [None]. *)
Example from_spec_default_origin_strict_parser :
  from_spec (H := tagged_signing)
    (H0 := widget_loader (Raise (OtherError "urlsplit")))
    (VDict []) None None None None (WifString "wif:5Kb8kLf9") empty_world =
  (empty_world, Raise (OtherError "urlsplit")).
Proof. by vm_compute. Qed.

Example from_spec_default_origin_lenient_parser :
  clients (from_spec (H := tagged_signing) (H0 := widget_loader (Ok None))
             (VDict []) None None None None (WifString "wif:5Kb8kLf9")
             empty_world).1 =
  [mkClient {[ None := "wif:5Kb8kLf9" ]}].
Proof. by vm_compute. Qed.

(** ** ResponseTriage: the whole case analysis *)

Section TriageCases.
Context `{U : ResponseUnmarshaller}.

(** Every run of the callback, by status class and response map. *)
Lemma callback_run (r : IncomingResponse) (op : Operation) (w : World) :
  bitjws_response_callback r op w =
    if is_server_error (status_code r)
    then (w, Raise (HTTPError r None VNone))
    else (record (UnmarshalCall (status_code r)) w,
          match responses op !! status_code r with
          | Some schema =>
              if is_success (status_code r)
              then Ok (unmarshal_schema_object schema r)
              else Raise (HTTPError r None (unmarshal_schema_object schema r))
          | None =>
              Raise (HTTPError r
                       (Some (not_found_message (status_code r)
                                                (operation_id op)))
                       VNone)
          end).
Proof.
  unfold bitjws_response_callback, raise_on_unexpected, unmarshal_response,
    raise_on_expected, try_except, bind, emit, ret, raise.
  destruct (is_server_error (status_code r)); [done |].
  destruct (responses op !! status_code r); [|done].
  by destruct (is_success (status_code r)).
Qed.

(** X1: the callback returns a value exactly when the status is in the
    success range and a schema is declared for it. *)
Theorem callback_returns_iff (r : IncomingResponse) (op : Operation)
    (w : World) :
  (exists v w', bitjws_response_callback r op w = (w', Ok v)) <->
  is_success (status_code r) = true /\
  is_Some (responses op !! status_code r).
Proof.
  rewrite callback_run. split.
  - intros (v & w' & Hrun).
    destruct (is_server_error (status_code r)); [discriminate |].
    destruct (responses op !! status_code r) as [schema|]; [|discriminate].
    destruct (is_success (status_code r)); [eauto | discriminate].
  - intros [Hok [schema Hdecl]].
    rewrite (success_not_server_error _ Hok), Hdecl, Hok. eauto.
Qed.

(** X3: a status with no schema declared for it is an error also when it
    is in the success range: outside the server-error class the callback
    raises an [HTTPError] with the unmarshaller's diagnostic and no
    payload. *)
Theorem callback_undeclared_status_fails (r : IncomingResponse)
    (op : Operation) (w : World) :
  is_server_error (status_code r) = false ->
  responses op !! status_code r = None ->
  bitjws_response_callback r op w =
    (record (UnmarshalCall (status_code r)) w,
     Raise (HTTPError r
              (Some (not_found_message (status_code r) (operation_id op)))
              VNone)).
Proof. intros Hse Hdecl. rewrite callback_run. by rewrite Hse, Hdecl. Qed.

(** X4: the callback enters the unmarshaller once when the status is
    outside the server-error class and not at all otherwise; it leaves the
    dict objects, the transports and the RNG as they were. *)
Theorem callback_effects (r : IncomingResponse) (op : Operation) (w : World) :
  let w' := (bitjws_response_callback r op w).1 in
  trace w' =
    (trace w ++ if is_server_error (status_code r) then []
                else [UnmarshalCall (status_code r)])%list /\
  dicts w' = dicts w /\ clients w' = clients w /\ entropy w' = entropy w.
Proof.
  simpl. rewrite callback_run.
  destruct (is_server_error (status_code r)); simpl; [|done].
  by rewrite app_nil_r.
Qed.

End TriageCases.

Lemma callback_undeclared_status_fails_witness :
  is_success (status_code created) = true /\
  bitjws_response_callback (H := reason_unmarshaller) created getWidget
    empty_world =
  (record (UnmarshalCall 201) empty_world,
   Raise (HTTPError created
            (Some "Response specification matching http status_code not found for operation getWidget")
            VNone)).
Proof.
  split; [reflexivity |].
  apply (callback_undeclared_status_fails (U := reason_unmarshaller) created
           getWidget empty_world); reflexivity.
Defined.

(** ** Ordered dicts with unique keys *)

Section DictUnique.
Context {V : Type}.
Implicit Types (d : dict V) (k j : string).


Lemma dict_pop_NoDup k d : NoDup (keys d) -> NoDup (keys (dict_pop k d).2).
Proof.
  induction d as [|[k' v'] d IH]; simpl; [done |].
  intros [Hk Hnd]%NoDup_cons.
  destruct (String.eqb_spec k k') as [->|Hne]; [done |].
  pose proof (dict_pop_keys_ne k k' d (not_eq_sym Hne)) as Hiff.
  specialize (IH Hnd). destruct (dict_pop k d) as [r d1]. simpl in *.
  apply NoDup_cons. split; [by rewrite Hiff | done].
Qed.

(** With unique keys, a popped key is gone. *)
Lemma dict_pop_removes k d : NoDup (keys d) -> k ∉ keys (dict_pop k d).2.
Proof.
  induction d as [|[k' v'] d IH]; simpl.
  - intros _. apply not_elem_of_nil.
  - intros [Hk Hnd]%NoDup_cons.
    destruct (String.eqb_spec k k') as [->|Hne]; [done |].
    specialize (IH Hnd). destruct (dict_pop k d) as [r d1]. simpl in *.
    apply not_elem_of_cons. done.
Qed.

(** Popping another key passes over a binding, wherever it sits. *)
Lemma dict_pop_insert_middle k j (v : V) (a b : dict V) :
  j ≠ k ->
  exists a' b',
    (dict_pop j (a ++ b)%list).2 = (a' ++ b')%list /\
    dict_pop j (a ++ (k, v) :: b)%list =
      ((dict_pop j (a ++ b)%list).1, (a' ++ (k, v) :: b')%list).
Proof.
  intros Hne. induction a as [|[k' v'] a IH]; simpl.
  - destruct (String.eqb_spec j k) as [->|_]; [done |].
    exists [], (dict_pop j b).2. simpl. by destruct (dict_pop j b).
  - destruct (String.eqb_spec j k') as [->|Hne'].
    + by exists a, b.
    + destruct IH as (a' & b' & Hsnd & Hpop). rewrite Hpop.
      destruct (dict_pop j (a ++ b)%list) as [r c]. simpl in *. subst c.
      by exists ((k', v') :: a'), b'.
Qed.

End DictUnique.

(** ** OperationAdapter: when the request is built *)

Section Success.
Context `{PM : ParamMarshaller}.

(** What the first loop leaves in [current_params], with unique keys: a
    declared parameter that no keyword names. *)
Lemma marshal_supplied_leftover (op : Operation) (kwargs : dict value) :
  forall cur req w w' cur' req',
    NoDup (keys cur) ->
    marshal_supplied op kwargs cur req w = (w', Ok (cur', req')) ->
    forall j p, (j, p) ∈ cur' -> (j, p) ∈ cur /\ j ∉ keys kwargs.
Proof.
  induction kwargs as [|[k v] kwargs IH]; intros cur req w w' cur' req' Hnd;
    simpl.
  - unfold ret. intros [= <- <- <-] j p Hjp. split; [done |].
    apply not_elem_of_nil.
  - pose proof (dict_pop_NoDup k cur Hnd) as Hnd1.
    pose proof (dict_pop_removes k cur Hnd) as Hgone.
    pose proof (fun j p => dict_pop_subset (V := Param) k j p cur) as Hsub.
    destruct (dict_pop k cur) as [[p0|] cur1] eqn:Hpop; [|discriminate].
    simpl in *. unfold bind. rewrite marshal_param_run. intros Hrun j p Hjp.
    destruct (IH _ _ _ _ _ _ Hnd1 Hrun j p Hjp) as [Hin Hj].
    split.
    + by apply Hsub.
    + apply not_elem_of_cons. split; [|done].
      intros ->. apply Hgone. unfold keys. apply list_elem_of_fmap.
      by exists (k, p).
Qed.

(** The second loop ends well when nothing required is left. *)
Lemma marshal_remaining_optional (remaining : list Param) :
  forall req w,
    (forall p, p ∈ remaining -> required p = false) ->
    exists w' req', marshal_remaining remaining req w = (w', Ok req').
Proof.
  induction remaining as [|q remaining IH]; intros req w Hopt; simpl.
  - by eexists _, _.
  - rewrite (Hopt q) by left. simpl.
    assert (Hrest : forall p, p ∈ remaining -> required p = false).
    { intros p Hp. apply Hopt. by right. }
    destruct (has_default q).
    + unfold bind. rewrite marshal_param_run. by apply IH.
    + by apply IH.
Qed.

(** X5: for the keywords of a call and an operation whose parameter names
    are unique, [construct_request] returns a request exactly when every
    keyword names a declared parameter and every required parameter is
    named by a keyword. *)
Theorem construct_request_succeeds_iff (op : Operation) (kw : Kwargs)
    (w : World) :
  well_formed_kwargs kw ->
  NoDup (keys (params op)) ->
  (exists w' req, construct_request op kw w = (w', Ok req)) <->
  (forall k, k ∈ keys (args kw) -> k ∈ keys (params op)) /\
  (forall k p, (k, p) ∈ params op -> required p = true ->
               k ∈ keys (args kw)).
Proof.
  intros [Hnd _] Hndp. split.
  - intros (w' & req & Hrun). split.
    + intros k Hk. destruct (decide (k ∈ keys (params op))); [done |].
      destruct (first_unknown op (args kw)) as [u|] eqn:Hfind.
      * pose proof (construct_request_unknown op kw w u Hnd Hfind) as Hr.
        rewrite Hrun in Hr. discriminate.
      * apply list_elem_of_In in Hk.
        pose proof (List.find_none _ _ Hfind k Hk) as Hneg. simpl in Hneg.
        rewrite bool_decide_eq_false_2 in Hneg by done. done.
    + intros k p Hin Hreq. destruct (decide (k ∈ keys (args kw))); [done |].
      destruct (construct_request_missing_required op kw w k p Hin Hreq)
        as [msg Hr]; [done |].
      rewrite Hrun in Hr. discriminate.
  - intros [Hdecl Hreq].
    destruct (construct_request_params op kw w) as (req0 & w0 & ->).
    unfold construct_params, bind.
    assert (Hfind : first_unknown op (args kw) = None).
    { unfold first_unknown.
      destruct (List.find _ _) as [u|] eqn:Hf; [|done].
      apply List.find_some in Hf as [Hin Hneg].
      apply list_elem_of_In, Hdecl in Hin.
      rewrite bool_decide_eq_true_2 in Hneg by done. done. }
    destruct (marshal_supplied_known op (args kw) (params op) req0 w0 Hnd
                Hfind) as (w1 & cur' & req1 & Hrun & _).
    rewrite Hrun.
    apply marshal_remaining_optional. intros p Hp.
    unfold itervalues in Hp. apply list_elem_of_fmap in Hp as ([j q] & -> & Hjq).
    destruct (marshal_supplied_leftover _ _ _ _ _ _ _ _ Hndp Hrun j q Hjq)
      as [Hin Hj].
    simpl. destruct (required q) eqn:Hq; [|done].
    exfalso. apply Hj. by apply (Hreq j q).
Qed.

End Success.

(** ** OperationAdapter: what the store and the request hold afterwards *)

Section Frame.
Context `{PM : ParamMarshaller}.

(** X6: [construct_request] writes to one dict object only, the header
    object of the request: every other object of the store reads as before,
    one object is added exactly when the options bring no headers dict,
    and the transports and the RNG are left alone. *)
Theorem construct_request_frame (op : Operation) (kw : Kwargs) (w : World) :
  let w' := (construct_request op kw w).1 in
  (forall l, l ≠ headers_object kw w -> dicts w' !! l = dicts w !! l) /\
  length (dicts w') =
    (length (dicts w) +
     match opt_headers (default no_options (request_options kw)) with
     | Some _ => 0
     | None => 1
     end)%nat /\
  clients w' = clients w /\ entropy w' = entropy w.
Proof.
  simpl. destruct (construct_request_quiet op kw w) as (_ & Hc & He).
  split; [|split; [|done]];
    destruct (construct_request_run op kw) as (writes & out & Hrun);
    rewrite Hrun; unfold headers_object, with_headers_object, write_headers;
    destruct (opt_headers _) as [h|]; simpl.
  - intros l Hl. by rewrite list_lookup_alter_ne.
  - intros l Hl. rewrite list_lookup_alter_ne by done.
    destruct (decide (l < length (dicts w))%nat).
    + by rewrite lookup_app_l.
    + rewrite !lookup_ge_None_2; [done | lia |].
      rewrite length_app. simpl. lia.
  - rewrite length_alter. lia.
  - rewrite length_alter, length_app. simpl. lia.
Qed.


(** X8: the header mapping of a request that is returned is the caller's
    own dict object when the options carry one, and an object that did not
    exist before otherwise; the timeouts are those of the options, absent
    when the options do not give them. *)
Theorem construct_request_aliases_headers (op : Operation) (kw : Kwargs)
    (w w' : World) (req : Request) :
  construct_request op kw w = (w', Ok req) ->
  match opt_headers (default no_options (request_options kw)) with
  | Some l => headers req = l
  | None => headers req = length (dicts w) /\ dicts w !! headers req = None
  end /\
  connect_timeout req =
    opt_connect_timeout (default no_options (request_options kw)) /\
  timeout req = opt_timeout (default no_options (request_options kw)).
Proof.
  intros Hrun.
  destruct (construct_request_shape op kw w w' req Hrun) as (_ & Hc & Ht & _).
  split; [|done].
  destruct (construct_request_run op kw) as (writes & out & Hrun').
  rewrite Hrun' in Hrun. unfold headers_object in Hrun.
  destruct (opt_headers _) as [h|]; destruct out as [req0|e];
    simpl in Hrun; try discriminate; injection Hrun as _ <-; simpl.
  - done.
  - split; [done |]. by apply lookup_ge_None_2.
Qed.

(** What [construct_request] returns, and the dict objects it leaves,
    depend on the dict objects of the store only. *)
Lemma construct_request_same_dicts (op : Operation) (kw : Kwargs)
    (w0 w : World) :
  dicts w0 = dicts w ->
  (construct_request op kw w0).2 = (construct_request op kw w).2 /\
  dicts (construct_request op kw w0).1 = dicts (construct_request op kw w).1.
Proof.
  intros Hd. destruct (construct_request_run op kw) as (writes & out & Hrun).
  rewrite !Hrun. unfold headers_object, with_headers_object, write_headers.
  destruct (opt_headers _); simpl; by rewrite Hd.
Qed.

(** X9: a call whose request construction succeeds logs the call, warns
    if the operation is deprecated, and then hands exactly that request to
    the transport of the operation's spec, once; the handle is bound to
    the request and the operation. *)
Theorem call_hands_over_request (op : Operation) (kw : Kwargs) (w : World)
    (req : Request) :
  (construct_request op kw w).2 = Ok req ->
  exists w',
    call op kw w = (w', Ok (mkFuture req op)) /\
    trace w' =
      (trace w ++ call_prelude op kw
       ++ [HttpRequest (http_client (swagger_spec op)) req])%list /\
    dicts w' = dicts (construct_request op kw w).1.
Proof.
  intros Hreq. unfold call, bind, emit, warn_for_deprecated_op, call_prelude.
  set (w0 := record (LogCall (operation_id op) kw) w).
  destruct (deprecated op); simpl.
  - set (w1 := record (DeprecationWarning (operation_id op)) w0).
    destruct (construct_request_same_dicts op kw w1 w eq_refl) as [Hr Hd].
    pose proof (construct_request_quiet op kw w1) as (Ht & _).
    destruct (construct_request op kw w1) as [w2 r]. simpl in *.
    rewrite Hr, Hreq. unfold http_client_request, bind, emit, ret. simpl.
    eexists. split; [reflexivity |]. simpl. split; [|done].
    rewrite Ht. subst w1 w0. simpl. by rewrite <- !app_assoc.
  - unfold ret.
    destruct (construct_request_same_dicts op kw w0 w eq_refl) as [Hr Hd].
    pose proof (construct_request_quiet op kw w0) as (Ht & _).
    destruct (construct_request op kw w0) as [w2 r]. simpl in *.
    rewrite Hr, Hreq. unfold http_client_request, bind, emit, ret. simpl.
    eexists. split; [reflexivity |]. simpl. split; [|done].
    rewrite Ht. subst w0. simpl. by rewrite <- !app_assoc.
Qed.

End Frame.

(** ** OperationAdapter: what does not matter to the request *)

Lemma rstrip_slash_app_slash (s : string) :
  rstrip_slash (s +:+ "/") = rstrip_slash s.
Proof.
  induction s as [|c s IH]; simpl; [done |]. by rewrite IH.
Qed.

Section Irrelevant.
Context `{PM : ParamMarshaller}.

(** The first loop reads the operation for its id only. *)
Lemma marshal_supplied_operation_id (op op' : Operation)
    (kwargs : dict value) :
  operation_id op = operation_id op' ->
  forall cur req w,
    marshal_supplied op kwargs cur req w =
    marshal_supplied op' kwargs cur req w.
Proof.
  intros Hid. induction kwargs as [|[k v] kwargs IH]; intros cur req w; simpl;
    [done |].
  destruct (dict_pop k cur) as [[p|] cur1]; [|by rewrite Hid].
  unfold bind. rewrite marshal_param_run. apply IH.
Qed.

(** A declared parameter that no keyword names goes through the first
    loop untouched, wherever it sits. *)
Lemma marshal_supplied_insert_middle (op : Operation) (k : string)
    (p : Param) (kwargs : dict value) :
  k ∉ keys kwargs ->
  forall a b req w,
    match marshal_supplied op kwargs (a ++ b)%list req w with
    | (w1, Ok (c, r)) =>
        exists a' b', c = (a' ++ b')%list /\
          marshal_supplied op kwargs (a ++ (k, p) :: b)%list req w =
            (w1, Ok ((a' ++ (k, p) :: b')%list, r))
    | (w1, Raise e) =>
        marshal_supplied op kwargs (a ++ (k, p) :: b)%list req w =
          (w1, Raise e)
    end.
Proof.
  induction kwargs as [|[j v] kwargs IH]; intros Hk a b req w; simpl.
  - by exists a, b.
  - apply not_elem_of_cons in Hk as [Hne Hk].
    destruct (dict_pop_insert_middle k j p a b (not_eq_sym Hne))
      as (a' & b' & Hsnd & Hpop).
    rewrite Hpop.
    destruct (dict_pop j (a ++ b)%list) as [[q|] c]; simpl in *; [|done].
    subst c. unfold bind. rewrite marshal_param_run. by apply IH.
Qed.

(** The second loop passes over an optional parameter without default. *)
Lemma marshal_remaining_skip (p : Param) (l1 l2 : list Param) :
  required p = false -> has_default p = false ->
  forall req w,
    marshal_remaining (l1 ++ p :: l2)%list req w =
    marshal_remaining (l1 ++ l2)%list req w.
Proof.
  intros Hreq Hdef. induction l1 as [|q l1 IH]; intros req w; simpl.
  - by rewrite Hreq, Hdef.
  - destruct (required q); simpl; [done |].
    destruct (has_default q); [|apply IH].
    unfold bind. rewrite marshal_param_run. apply IH.
Qed.

(** X10: an optional parameter without a declared default that no keyword
    names leaves no mark: the operation builds the same request, writes
    the same headers and raises the same errors as the operation without
    that parameter. *)
Theorem omitted_optional_parameter_ignored (op : Operation)
    (a b : dict Param) (k : string) (p : Param) (kw : Kwargs) (w : World) :
  required p = false -> has_default p = false -> k ∉ keys (args kw) ->
  construct_request (with_params (a ++ (k, p) :: b)%list op) kw w =
  construct_request (with_params (a ++ b)%list op) kw w.
Proof.
  intros Hreq Hdef Hk. unfold construct_request, bind. simpl.
  destruct (match opt_headers _ with Some h => ret h | None => new_dict ∅ end w)
    as [w0 [h|e]]; [|done].
  unfold construct_params, bind. simpl.
  set (req0 := mkRequest _ _ _ _ _ _ _).
  rewrite (marshal_supplied_operation_id
             (with_params (a ++ (k, p) :: b)%list op) op) by done.
  rewrite (marshal_supplied_operation_id
             (with_params (a ++ b)%list op) op) by done.
  pose proof (marshal_supplied_insert_middle op k p (args kw) Hk a b req0 w0)
    as Hmid.
  destruct (marshal_supplied op (args kw) (a ++ b)%list req0 w0)
    as [w1 [[c r]|e]].
  - destruct Hmid as (a' & b' & -> & ->).
    unfold itervalues. rewrite !map_app. simpl.
    by apply marshal_remaining_skip.
  - by rewrite Hmid.
Qed.

(** X11: one more slash at the end of the base API url makes no
    difference to what [construct_request] does. *)
Theorem trailing_slash_of_api_url_ignored (op : Operation) (u : string)
    (kw : Kwargs) (w : World) :
  construct_request (with_api_url (u +:+ "/") op) kw w =
  construct_request (with_api_url u op) kw w.
Proof.
  unfold construct_request, bind. simpl. rewrite rstrip_slash_app_slash.
  destruct (match opt_headers _ with Some h => ret h | None => new_dict ∅ end w)
    as [w0 [h|e]]; [|done].
  unfold construct_params, bind. simpl.
  by rewrite (marshal_supplied_operation_id
                (with_api_url (u +:+ "/") op) (with_api_url u op)).
Qed.

End Irrelevant.

(** ** ClientFacade: the transport the constructors create *)

Section FacadeWiring.
Context `{SP : SigningPrimitive} `{SL : SpecLoader}.

(** The key a usable [privkey] argument resolves to. *)
Lemma privkey_or_new_resolved (privkey : PrivkeyArg) (w : World) :
  usable_privkey privkey ->
  privkey_or_new privkey w =
    (mkWorld (dicts w) (clients w) (trace w) (entropy_after privkey w),
     Ok (mkPrivateKey (resolved_secret privkey w))).
Proof.
  destruct privkey as [|s|[secret]]; simpl.
  - done.
  - intros [secret Hs]. unfold private_key_of_wif. rewrite Hs. simpl.
    by destruct w.
  - intros _. by destruct w.
Qed.

(** Registering on a transport just created. *)
Lemma register_on_new_client (cs : list HttpClient) (host : option string)
    (wif : string) :
  alter (fun c => mkClient (<[host := wif]> (bitjws_keys c))) (length cs)
        (cs ++ [mkClient ∅])%list =
  (cs ++ [mkClient {[ host := wif ]}])%list.
Proof.
  rewrite alter_app_r_alt, Nat.sub_diag by lia. simpl.
  by rewrite insert_empty.
Qed.

(** X12: without a transport supplied, [from_spec] creates one signing
    transport, registers on it one key, the WIF of the resolved key for the
    host of the origin url, and builds the spec on that transport.  The
    transports that existed stay as they were, and the new one stays also
    when the spec does not build. *)
Theorem from_spec_creates_signing_transport (spec_dict : value)
    (origin_url : option string) (config : option value)
    (resource_decorator : option ResourceDecorator) (privkey : PrivkeyArg)
    (w : World) (host : option string) :
  usable_privkey privkey ->
  hostname_of origin_url = Ok host ->
  from_spec spec_dict origin_url None config resource_decorator privkey w =
    (mkWorld (dicts w)
       (clients w ++
        [mkClient {[ host := privkey_to_wif (resolved_secret privkey w) ]}])
       (trace w) (entropy_after privkey w),
     result_map (client_of resource_decorator)
       (from_dict spec_dict origin_url (length (clients w)) config)).
Proof.
  intros Hpk Hhost. unfold from_spec, bind.
  rewrite (privkey_or_new_resolved privkey w Hpk). simpl.
  unfold lift, bind. rewrite Hhost. simpl.
  rewrite register_on_new_client.
  by destruct (from_dict _ _ _ _).
Qed.

(** X13: without a transport supplied, [from_url] fetches the document
    through the transport it has just created, with the key already
    registered for the host of the url, and builds the spec on that same
    transport with the url as origin; one transport is created and the
    RNG is drawn from at most once. *)
Theorem from_url_fetches_through_signing_transport (spec_url : string)
    (request_headers : option (gmap string value)) (config : option value)
    (resource_decorator : option ResourceDecorator) (privkey : PrivkeyArg)
    (w : World) (host : option string) :
  usable_privkey privkey ->
  hostname_of (Some spec_url) = Ok host ->
  let transport :=
    mkClient {[ host := privkey_to_wif (resolved_secret privkey w) ]} in
  from_url spec_url None request_headers config resource_decorator privkey w =
    (mkWorld (dicts w) (clients w ++ [transport])
       (trace w ++ [LogLoading spec_url;
                    FetchSpec (length (clients w)) spec_url])
       (entropy_after privkey w),
     match load_spec transport request_headers spec_url with
     | Ok spec_dict =>
         result_map (client_of resource_decorator)
           (from_dict spec_dict (Some spec_url) (length (clients w)) config)
     | Raise e => Raise e
     end).
Proof.
  intros Hpk Hhost. simpl. unfold from_url, bind, emit.
  rewrite (privkey_or_new_resolved privkey _ Hpk). simpl.
  unfold lift, bind. rewrite Hhost. simpl.
  rewrite register_on_new_client.
  unfold loader_load_spec, bind, emit, record. simpl.
  rewrite lookup_total_app_r, Nat.sub_diag by lia. simpl.
  rewrite <- app_assoc. simpl.
  destruct (load_spec _ _ _) as [spec_dict|e]; [|done].
  unfold from_spec, bind, lift, ret. simpl.
  by destruct (from_dict _ _ _ _).
Qed.

(** X14: a [privkey] string that is not WIF makes both constructors raise
    before anything else happens: no transport is created, no key is
    registered, nothing is fetched, with or without a transport
    supplied. *)
Theorem undecodable_privkey_fails_first (s : string) (spec_dict : value)
    (origin_url : option string) (spec_url : string)
    (http_client : option nat)
    (request_headers : option (gmap string value)) (config : option value)
    (resource_decorator : option ResourceDecorator) (w : World) :
  wif_to_privkey s = None ->
  exists e,
    from_spec spec_dict origin_url http_client config resource_decorator
      (WifString s) w = (w, Raise e) /\
    from_url spec_url http_client request_headers config resource_decorator
      (WifString s) w = (record (LogLoading spec_url) w, Raise e).
Proof.
  intros Hs. eexists. unfold from_spec, from_url, bind, emit. simpl.
  unfold private_key_of_wif. rewrite Hs. split; reflexivity.
Qed.

(** X15: without a transport supplied, a url whose host cannot be resolved
    makes both constructors raise the parser's error with no transport
    created and nothing fetched. *)
Theorem unresolved_host_creates_nothing (spec_dict : value)
    (origin_url : option string) (spec_url : string)
    (request_headers : option (gmap string value)) (config : option value)
    (resource_decorator : option ResourceDecorator) (privkey : PrivkeyArg)
    (w : World) (e e' : Exn) :
  usable_privkey privkey ->
  hostname_of origin_url = Raise e ->
  hostname_of (Some spec_url) = Raise e' ->
  let s := from_spec spec_dict origin_url None config resource_decorator
             privkey w in
  let u := from_url spec_url None request_headers config resource_decorator
             privkey w in
  (s.2 = Raise e /\ clients s.1 = clients w /\ trace s.1 = trace w) /\
  (u.2 = Raise e' /\ clients u.1 = clients w /\
   trace u.1 = (trace w ++ [LogLoading spec_url])%list).
Proof.
  intros Hpk Hhost Hhost'. simpl. unfold from_spec, from_url, bind, emit.
  rewrite !(privkey_or_new_resolved privkey _ Hpk). simpl.
  unfold lift, bind. by rewrite Hhost, Hhost'.
Qed.

(** X16: the RNG is drawn from exactly when [privkey] is absent, once, in
    [from_spec] and in [from_url] alike, with or without a transport
    supplied: a key is generated also where a supplied transport leaves it
    unused. *)
Theorem rng_drawn_iff_privkey_absent (spec_dict : value)
    (origin_url : option string) (spec_url : string)
    (http_client : option nat)
    (request_headers : option (gmap string value)) (config : option value)
    (resource_decorator : option ResourceDecorator) (privkey : PrivkeyArg)
    (w : World) :
  usable_privkey privkey ->
  entropy (from_spec spec_dict origin_url http_client config
             resource_decorator privkey w).1 = entropy_after privkey w /\
  entropy (from_url spec_url http_client request_headers config
             resource_decorator privkey w).1 = entropy_after privkey w.
Proof.
  intros Hpk. unfold from_spec, from_url, bind, emit.
  rewrite !(privkey_or_new_resolved privkey _ Hpk). simpl.
  unfold http_client_or_new, loader_load_spec, lift, ret, bind, emit.
  destruct http_client as [hc|]; simpl; split;
    repeat case_match; simplify_eq/=; try done.
  all: unfold from_spec, bind, lift, ret; simpl; by repeat case_match.
Qed.

End FacadeWiring.

(** ** The further theorems on [getWidget] and [listWidgets] *)

Lemma construct_request_succeeds_iff_witness :
  (exists w' req,
     construct_request (H := plain_marshaller) getWidget kw_id empty_world =
       (w', Ok req)) <->
  (forall k, k ∈ keys (args kw_id) -> k ∈ keys (params getWidget)) /\
  (forall k p, (k, p) ∈ params getWidget -> required p = true ->
               k ∈ keys (args kw_id)).
Proof.
  apply (construct_request_succeeds_iff (PM := plain_marshaller) getWidget
           kw_id empty_world).
  - split; by_evaluation.
  - by_evaluation.
Defined.

Lemma construct_request_frame_witness :
  let w' := (construct_request (H := plain_marshaller) getWidget kw_traced
               caller_world).1 in
  (forall l, l ≠ headers_object kw_traced caller_world ->
             dicts w' !! l = dicts caller_world !! l) /\
  length (dicts w') =
    (length (dicts caller_world) +
     match opt_headers (default no_options (request_options kw_traced)) with
     | Some _ => 0
     | None => 1
     end)%nat /\
  clients w' = clients caller_world /\ entropy w' = entropy caller_world.
Proof.
  exact (construct_request_frame (PM := plain_marshaller) getWidget kw_traced
           caller_world).
Defined.

Lemma construct_request_aliases_headers_witness :
  opt_headers (default no_options (request_options kw_traced)) = Some 0%nat /\
  headers traced_request = 0%nat /\
  connect_timeout traced_request = None /\
  timeout traced_request = Some (VInt 30).
Proof.
  split; [reflexivity |].
  apply (construct_request_aliases_headers (PM := plain_marshaller) getWidget
           kw_traced stale_world traced_world traced_request).
  by vm_compute.
Defined.

Lemma call_hands_over_request_witness :
  exists w',
    call (H := plain_marshaller) getWidget kw_id empty_world =
      (w', Ok (mkFuture widget_request getWidget)) /\
    trace w' =
      (trace empty_world ++ call_prelude getWidget kw_id
       ++ [HttpRequest (http_client (swagger_spec getWidget)) widget_request])%list /\
    dicts w' =
      dicts (construct_request (H := plain_marshaller) getWidget kw_id
               empty_world).1.
Proof.
  apply (call_hands_over_request (PM := plain_marshaller) getWidget kw_id
           empty_world widget_request).
  reflexivity.
Defined.

Lemma omitted_optional_parameter_ignored_witness :
  construct_request (H := plain_marshaller)
    (with_params ([] ++ ("tag", tag_param) ::
                  [("limit", mkParam "limit" InQuery false (Some (VInt 20))
                               "integer")])%list listWidgets)
    kw_limit caller_world =
  construct_request (H := plain_marshaller)
    (with_params ([] ++ [("limit", mkParam "limit" InQuery false
                                     (Some (VInt 20)) "integer")])%list
                 listWidgets)
    kw_limit caller_world.
Proof.
  apply (omitted_optional_parameter_ignored (PM := plain_marshaller)
           listWidgets [] _ "tag" tag_param kw_limit caller_world).
  - reflexivity.
  - reflexivity.
  - by_evaluation.
Defined.

Lemma from_spec_creates_signing_transport_witness :
  let SP := tagged_signing in
  let SL := widget_loader (Ok None) in
  from_spec (VDict []) (Some "http://widgets.example/swagger.json") None None
    None (WifString "wif:5Kb8kLf9") transport_world =
  (mkWorld (dicts transport_world)
     (clients transport_world ++
      [mkClient {[ Some "widgets.example" :=
                    privkey_to_wif
                      (resolved_secret (WifString "wif:5Kb8kLf9")
                                       transport_world) ]}])
     (trace transport_world)
     (entropy_after (WifString "wif:5Kb8kLf9") transport_world),
   result_map (client_of None)
     (from_dict (VDict []) (Some "http://widgets.example/swagger.json")
                (length (clients transport_world)) None)).
Proof.
  apply (from_spec_creates_signing_transport (SP := tagged_signing)
           (SL := widget_loader (Ok None)) (VDict [])
           (Some "http://widgets.example/swagger.json") None None
           (WifString "wif:5Kb8kLf9") transport_world
           (Some "widgets.example")).
  - eexists. reflexivity.
  - reflexivity.
Defined.

Lemma from_url_fetches_through_signing_transport_witness :
  let SP := tagged_signing in
  let SL := widget_loader (Ok None) in
  let transport :=
    mkClient {[ Some "widgets.example" :=
                  privkey_to_wif (resolved_secret NoPrivkey transport_world) ]}
  in
  from_url "http://widgets.example/swagger.json" None None None None
    NoPrivkey transport_world =
  (mkWorld (dicts transport_world) (clients transport_world ++ [transport])
     (trace transport_world ++
      [LogLoading "http://widgets.example/swagger.json";
       FetchSpec (length (clients transport_world))
                 "http://widgets.example/swagger.json"])
     (entropy_after NoPrivkey transport_world),
   match load_spec transport None "http://widgets.example/swagger.json" with
   | Ok spec_dict =>
       result_map (client_of None)
         (from_dict spec_dict (Some "http://widgets.example/swagger.json")
                    (length (clients transport_world)) None)
   | Raise e => Raise e
   end).
Proof.
  apply (from_url_fetches_through_signing_transport (SP := tagged_signing)
           (SL := widget_loader (Ok None))
           "http://widgets.example/swagger.json" None None None NoPrivkey
           transport_world (Some "widgets.example")).
  - exact I.
  - reflexivity.
Defined.

Lemma undecodable_privkey_fails_first_witness :
  let SP := tagged_signing in
  let SL := widget_loader (Ok None) in
  exists e,
    from_spec (VDict []) None None None None (WifString "not a key")
      transport_world = (transport_world, Raise e) /\
    from_url "http://widgets.example/swagger.json" None None None None
      (WifString "not a key") transport_world =
      (record (LogLoading "http://widgets.example/swagger.json")
              transport_world, Raise e).
Proof.
  apply (undecodable_privkey_fails_first (SP := tagged_signing)
           (SL := widget_loader (Ok None)) "not a key" (VDict []) None
           "http://widgets.example/swagger.json" None None None None
           transport_world).
  reflexivity.
Defined.

Lemma unresolved_host_creates_nothing_witness :
  let SP := tagged_signing in
  let SL := unresolving_loader in
  let s := from_spec (VDict []) None None None None NoPrivkey
             transport_world in
  let u := from_url "swagger.json" None None None None NoPrivkey
             transport_world in
  (s.2 = Raise (OtherError "urlsplit") /\
   clients s.1 = clients transport_world /\
   trace s.1 = trace transport_world) /\
  (u.2 = Raise (OtherError "urlsplit") /\
   clients u.1 = clients transport_world /\
   trace u.1 = (trace transport_world ++ [LogLoading "swagger.json"])%list).
Proof.
  apply (unresolved_host_creates_nothing (SP := tagged_signing)
           (SL := unresolving_loader) (VDict []) None "swagger.json" None
           None None NoPrivkey transport_world (OtherError "urlsplit")
           (OtherError "urlsplit")).
  - exact I.
  - reflexivity.
  - reflexivity.
Defined.

Lemma rng_drawn_iff_privkey_absent_witness :
  let SP := tagged_signing in
  let SL := widget_loader (Ok None) in
  entropy (from_spec (VDict []) None (Some 0%nat) None None NoPrivkey
             transport_world).1 = entropy_after NoPrivkey transport_world /\
  entropy (from_url "http://widgets.example/swagger.json" (Some 0%nat) None
             None None NoPrivkey transport_world).1 =
    entropy_after NoPrivkey transport_world.
Proof.
  apply (rng_drawn_iff_privkey_absent (SP := tagged_signing)
           (SL := widget_loader (Ok None)) (VDict []) None
           "http://widgets.example/swagger.json" (Some 0%nat) None None None
           NoPrivkey transport_world).
  exact I.
Defined.

(** ** OperationAdapter: the caller's headers and the header parameters *)



Section HeaderEntries.
Context `{PM : ParamMarshaller}.





End HeaderEntries.


Section HeaderParameter.
Context `{PM : ParamMarshaller}.




End HeaderParameter.



(** ** OperationAdapter: which error is raised *)

Lemma filter_all_true {A} (f : A -> bool) (l : list A) :
  (forall x, x ∈ l -> f x = true) -> List.filter f l = l.
Proof.
  induction l as [|a l IH]; simpl; [done |].
  intros Hf. rewrite (Hf a) by left. f_equal. apply IH.
  intros x Hx. apply Hf. by right.
Qed.

Lemma filter_filter_and {A} (f g : A -> bool) (l : list A) :
  List.filter f (List.filter g l) = List.filter (fun x => g x && f x) l.
Proof.
  induction l as [|a l IH]; simpl; [done |].
  destruct (g a); simpl; [|done]. destruct (f a); by rewrite IH.
Qed.

(** With unique keys, popping is filtering. *)
Lemma dict_pop_filter {V} (k : string) (d : dict V) :
  NoDup (keys d) ->
  (dict_pop k d).2 = List.filter (fun kp => negb (bool_decide (kp.1 = k))) d.
Proof.
  induction d as [|[k' v'] d IH]; simpl; [done |].
  intros [Hk Hnd]%NoDup_cons.
  destruct (String.eqb_spec k k') as [->|Hne].
  - rewrite (bool_decide_eq_true_2 (k' = k')) by done. simpl.
    symmetry. apply filter_all_true. intros [j x] Hjx. simpl.
    rewrite bool_decide_eq_false_2; [done |].
    intros ->. apply Hk. unfold keys. apply list_elem_of_fmap.
    by exists (k', x).
  - rewrite (bool_decide_eq_false_2 (k' = k)) by done. simpl.
    specialize (IH Hnd). destruct (dict_pop k d) as [r d1]. simpl in *.
    by rewrite IH.
Qed.

Section WhichError.
Context `{PM : ParamMarshaller}.

(** What the first loop leaves, exactly: the declared parameters that no
    keyword names, in declaration order. *)
Lemma marshal_supplied_leftover_exact (op : Operation) (kwargs : dict value) :
  forall cur req w w' cur' req',
    NoDup (keys cur) ->
    marshal_supplied op kwargs cur req w = (w', Ok (cur', req')) ->
    cur' = List.filter (fun kp => negb (bool_decide (kp.1 ∈ keys kwargs))) cur.
Proof.
  induction kwargs as [|[k v] kwargs IH]; intros cur req w w' cur' req' Hnd;
    simpl.
  - unfold ret. intros [= <- <- <-]. symmetry. apply filter_all_true.
    by intros kp _.
  - pose proof (dict_pop_NoDup k cur Hnd) as Hnd1.
    pose proof (dict_pop_filter k cur Hnd) as Hfilter.
    destruct (dict_pop k cur) as [[p0|] cur1]; [|discriminate].
    simpl in *. unfold bind. rewrite marshal_param_run. intros Hrun.
    rewrite (IH _ _ _ _ _ _ Hnd1 Hrun), Hfilter, filter_filter_and.
    apply List.filter_ext. intros [j q]. simpl.
    destruct (decide (j = k)) as [->|Hne].
    + rewrite bool_decide_eq_true_2 by done. simpl.
      rewrite bool_decide_eq_true_2; [done | left].
    + rewrite bool_decide_eq_false_2 by done. simpl. f_equal.
      apply bool_decide_ext. rewrite elem_of_cons.
      split; [by right | intros [Heq|Hin]; [by destruct Hne | done]].
Qed.

Lemma marshal_remaining_first_required (remaining : list Param) (p : Param) :
  List.find required remaining = Some p ->
  forall req w,
    (marshal_remaining remaining req w).2 =
      Raise (SwaggerMappingError (required_parameter_message p)).
Proof.
  induction remaining as [|q remaining IH]; simpl; [done |].
  destruct (required q) eqn:Hq; simpl.
  - by intros [= <-].
  - intros Hfind req w. destruct (has_default q); [|by apply IH].
    unfold bind. rewrite marshal_param_run. by apply IH.
Qed.

(** X19: when every keyword names a declared parameter and required
    parameters are left out, the error names the first of them in the
    declaration order of the operation. *)
Theorem first_missing_required_is_reported (op : Operation) (kw : Kwargs)
    (w : World) (p : Param) :
  well_formed_kwargs kw ->
  NoDup (keys (params op)) ->
  first_unknown op (args kw) = None ->
  first_missing_required op (args kw) = Some p ->
  (construct_request op kw w).2 =
    Raise (SwaggerMappingError (required_parameter_message p)).
Proof.
  intros [Hnd _] Hndp Hknown Hfirst.
  destruct (construct_request_params op kw w) as (req0 & w0 & ->).
  unfold construct_params, bind.
  destruct (marshal_supplied_known op (args kw) (params op) req0 w0 Hnd
              Hknown) as (w1 & cur' & req1 & Hrun & _).
  rewrite Hrun.
  rewrite (marshal_supplied_leftover_exact _ _ _ _ _ _ _ _ Hndp Hrun).
  by apply marshal_remaining_first_required.
Qed.

(** X20: whenever [construct_request] raises, the call raises the same
    error and hands nothing to the transport: the trace holds no more
    network I/O than before. *)
Theorem call_fails_without_request (op : Operation) (kw : Kwargs)
    (w : World) (e : Exn) :
  (construct_request op kw w).2 = Raise e ->
  exists w',
    call op kw w = (w', Raise e) /\
    List.filter network_io (trace w') = List.filter network_io (trace w).
Proof.
  intros Hraise. apply call_raises. intros w0.
  by apply (construct_request_raise_any_store op kw w).
Qed.

End WhichError.

Lemma first_missing_required_is_reported_witness :
  first_missing_required putWidget (args kw_only_trace) = Some id_param /\
  (construct_request (H := plain_marshaller) putWidget kw_only_trace
     empty_world).2 =
    Raise (SwaggerMappingError (required_parameter_message id_param)).
Proof.
  split; [reflexivity |].
  apply (first_missing_required_is_reported (PM := plain_marshaller)
           putWidget kw_only_trace empty_world id_param).
  - split; by_evaluation.
  - by_evaluation.
  - reflexivity.
  - reflexivity.
Defined.

Lemma call_fails_without_request_witness :
  exists w',
    call (H := plain_marshaller) getWidget kw_two_unknown empty_world =
      (w', Raise (SwaggerMappingError
                    "getWidget does not have parameter foo")) /\
    List.filter network_io (trace w') =
      List.filter network_io (trace empty_world).
Proof.
  apply (call_fails_without_request (PM := plain_marshaller) getWidget
           kw_two_unknown empty_world).
  reflexivity.
Defined.

(** ** ResponseTriage: what the callback catches *)

Section Catch.
Context `{U : ResponseUnmarshaller}.

(** X2: the callback catches [MatchingResponseNotFound] and nothing else.
    On a status outside the server-error class, when the unmarshalling
    step raises [MatchingResponseNotFound] the callback raises an
    [HTTPError] for the response with the text of that exception as
    message; when the step raises any other exception, the callback lets
    it through to the caller as it is. *)
Theorem callback_catches_no_match_only (unmarshal : M value)
    (r : IncomingResponse) (w w1 : World) (e : Exn) :
  is_server_error (status_code r) = false ->
  unmarshal w = (w1, Raise e) ->
  callback_around unmarshal r w = (w1, Raise (reraised r e)) /\
  forall op,
    bitjws_response_callback r op = callback_around (unmarshal_response r op) r.
Proof.
  intros Hse Hun. split; [|done].
  unfold callback_around, raise_on_unexpected, try_except, bind, ret, raise.
  rewrite Hse, Hun. by destruct e.
Qed.

End Catch.

Lemma callback_catches_no_match_only_witness :
  callback_around (raise (OtherError "ValidationError")) ok_response
    empty_world =
    (empty_world, Raise (OtherError "ValidationError")) /\
  forall op,
    bitjws_response_callback (H := reason_unmarshaller) ok_response op =
    callback_around
      (unmarshal_response (H := reason_unmarshaller) ok_response op)
      ok_response.
Proof.
  apply (callback_catches_no_match_only (U := reason_unmarshaller)
           (raise (OtherError "ValidationError")) ok_response empty_world
           empty_world (OtherError "ValidationError")); reflexivity.
Defined.

(** ** OperationAdapter: repeatable, not pure *)

Section Repeatable.
Context `{PM : ParamMarshaller}.

Lemma fill_paths_app (a b : list (string * value)) (u : string) :
  fill_paths (a ++ b)%list u = fill_paths b (fill_paths a u).
Proof. unfold fill_paths. apply fold_left_app. Qed.

Lemma place_url (p : Param) (v : value) (req : Request) :
  url (place p v req) = fill_paths (path_fill p v) (url req).
Proof. unfold place, path_fill. by destruct (location p). Qed.

(** The url after the first loop, and what the loop leaves. *)
Lemma marshal_supplied_fills (op : Operation) (kwargs : dict value) :
  forall cur req w w' cur' req',
    marshal_supplied op kwargs cur req w = (w', Ok (cur', req')) ->
    cur' = (supplied_fills kwargs cur).2 /\
    url req' = fill_paths (supplied_fills kwargs cur).1 (url req).
Proof.
  induction kwargs as [|[k v] kwargs IH]; intros cur req w w' cur' req'; simpl.
  - unfold ret. by intros [= <- <- <-].
  - destruct (dict_pop k cur) as [[p|] cur1]; [|discriminate].
    unfold bind. rewrite marshal_param_run. intros Hrun.
    destruct (IH _ _ _ _ _ _ Hrun) as [Hleft Hurl].
    destruct (supplied_fills kwargs cur1) as [fills left]. simpl in *.
    split; [done |]. by rewrite Hurl, fill_paths_app, place_url.
Qed.

(** The url after the second loop. *)
Lemma marshal_remaining_fills (remaining : list Param) :
  forall req w w' req',
    marshal_remaining remaining req w = (w', Ok req') ->
    url req' = fill_paths (default_fills remaining) (url req).
Proof.
  induction remaining as [|q remaining IH]; intros req w w' req'; simpl.
  - unfold ret. by intros [= <- <-].
  - destruct (required q); simpl; [discriminate |].
    destruct (has_default q); [|apply IH].
    unfold bind. rewrite marshal_param_run. intros Hrun.
    by rewrite (IH _ _ _ _ Hrun), fill_paths_app, place_url.
Qed.

(** The url of a request that is returned. *)
Lemma construct_request_url (op : Operation) (kw : Kwargs) (w w' : World)
    (req : Request) :
  construct_request op kw w = (w', Ok req) ->
  url req = fill_paths (path_fills op (args kw))
              (rstrip_slash (api_url (swagger_spec op)) +:+ path_name op).
Proof.
  unfold construct_request, construct_params, bind.
  destruct (match opt_headers _ with Some h => ret h | None => new_dict ∅ end w)
    as [w0 [l|e]]; [|discriminate].
  destruct (marshal_supplied _ _ _ _ w0) as [w1 [[cur req1]|e]] eqn:H1;
    [|discriminate].
  intros H2.
  apply marshal_supplied_fills in H1 as [Hleft Hurl].
  apply marshal_remaining_fills in H2.
  unfold path_fills.
  destruct (supplied_fills (args kw) (params op)) as [fills left].
  simpl in *. subst cur. by rewrite H2, Hurl, fill_paths_app.
Qed.

(** A request is returned when every keyword is declared and every
    required parameter supplied. *)
Lemma construct_request_returns (op : Operation) (kw : Kwargs) (w : World) :
  NoDup (keys (args kw)) ->
  NoDup (keys (params op)) ->
  (forall k, k ∈ keys (args kw) -> k ∈ keys (params op)) ->
  (forall k p, (k, p) ∈ params op -> required p = true ->
               k ∈ keys (args kw)) ->
  exists w' req, construct_request op kw w = (w', Ok req).
Proof.
  intros Hnd Hndp Hdecl Hreq.
  destruct (construct_request_params op kw w) as (req0 & w0 & ->).
  unfold construct_params, bind.
  assert (Hfind : first_unknown op (args kw) = None).
  { unfold first_unknown.
    destruct (List.find _ _) as [u|] eqn:Hf; [|done].
    apply List.find_some in Hf as [Hin Hneg].
    apply list_elem_of_In, Hdecl in Hin.
    rewrite bool_decide_eq_true_2 in Hneg by done. done. }
  destruct (marshal_supplied_known op (args kw) (params op) req0 w0 Hnd
              Hfind) as (w1 & cur' & req1 & Hrun & _).
  rewrite Hrun.
  apply marshal_remaining_optional. intros p Hp.
  unfold itervalues in Hp. apply list_elem_of_fmap in Hp as ([j q] & -> & Hjq).
  destruct (marshal_supplied_leftover _ _ _ _ _ _ _ _ Hndp Hrun j q Hjq)
    as [Hin Hj].
  simpl. destruct (required q) eqn:Hq; [|done].
  exfalso. apply Hj. by apply (Hreq j q).
Qed.

(** C8 (amended): [construct_request] is repeatable, not pure.  Called
    twice in a row with the same operation and the same kwargs it gives
    the same outcome: the same error, or requests with the same method,
    url, query parameters, header mapping, timeouts and body.  It does no
    network I/O: neither call adds an event to the trace or touches a
    transport or the RNG.  The one thing it changes is the dict object
    that is the request's header mapping, the caller's own headers dict
    when the options carry one; every other dict object reads as before.
    A request that is returned has the operation's method in upper case
    and the url made of the base API url without trailing slashes and the
    path template, with the path parameters of the call filled in; and a
    request is returned whenever every keyword names a declared parameter
    and every required parameter is named by a keyword. *)
Theorem construct_request_repeatable (op : Operation) (kw : Kwargs)
    (w : World) :
  let first := construct_request op kw w in
  let second := construct_request op kw first.1 in
  result_map (describe first.1) first.2 =
    result_map (describe second.1) second.2 /\
  (trace first.1 = trace w /\ trace second.1 = trace w /\
   clients second.1 = clients w /\ entropy second.1 = entropy w) /\
  (forall l, l ≠ headers_object kw w -> dicts first.1 !! l = dicts w !! l) /\
  (forall req, first.2 = Ok req ->
     method req = upper (http_method op) /\
     url req = fill_paths (path_fills op (args kw))
                 (rstrip_slash (api_url (swagger_spec op))
                  +:+ path_name op)) /\
  (well_formed_kwargs kw -> NoDup (keys (params op)) ->
   (forall k, k ∈ keys (args kw) -> k ∈ keys (params op)) ->
   (forall k p, (k, p) ∈ params op -> required p = true ->
                k ∈ keys (args kw)) ->
   exists req, first.2 = Ok req).
Proof.
  intros first second.
  pose proof (construct_request_repeat op kw w) as Hrepeat.
  subst second first. simpl in Hrepeat.
  destruct (construct_request_quiet op kw w) as (Ht1 & Hc1 & He1).
  destruct (construct_request_quiet op kw (construct_request op kw w).1)
    as (Ht2 & Hc2 & He2).
  split; [exact Hrepeat |].
  split; [repeat split; congruence |].
  split; [|split].
  - destruct (construct_request_run op kw) as (writes & out & Hrun).
    rewrite Hrun. unfold headers_object, with_headers_object, write_headers.
    destruct (opt_headers _) as [h|]; simpl; intros l Hl;
      rewrite list_lookup_alter_ne by done; [done |].
    destruct (decide (l < length (dicts w))%nat).
    + by rewrite lookup_app_l.
    + rewrite !lookup_ge_None_2; [done | lia |].
      rewrite length_app. simpl. lia.
  - intros req Hreq.
    destruct (construct_request op kw w) as [w1 r1] eqn:Hrun. simpl in Hreq.
    subst r1. split.
    + by destruct (construct_request_shape op kw w w1 req Hrun) as (Hm & _).
    + by apply (construct_request_url op kw w w1).
  - intros [Hnd _] Hndp Hdecl Hreq.
    destruct (construct_request_returns op kw w Hnd Hndp Hdecl Hreq)
      as (w' & req & Hrun).
    exists req. by rewrite Hrun.
Qed.

End Repeatable.

Lemma getWidget_args_declared (k : string) :
  k ∈ keys (args kw_traced) -> k ∈ keys (params getWidget).
Proof.
  intros Hk. apply list_elem_of_In in Hk. simpl in Hk.
  destruct Hk as [<-|[<-|[]]]; by_evaluation.
Defined.

Lemma getWidget_required_supplied (k : string) (p : Param) :
  (k, p) ∈ params getWidget -> required p = true ->
  k ∈ keys (args kw_traced).
Proof.
  intros Hin. apply list_elem_of_In in Hin. simpl in Hin.
  destruct Hin as [[= <- <-]|[[= <- <-]|[]]]; simpl; intros Hreq.
  - by_evaluation.
  - discriminate Hreq.
Defined.

Lemma construct_request_repeatable_witness :
  let first :=
    construct_request (H := plain_marshaller) getWidget kw_traced
      caller_world in
  let second :=
    construct_request (H := plain_marshaller) getWidget kw_traced first.1 in
  result_map (describe first.1) first.2 =
    result_map (describe second.1) second.2 /\
  trace second.1 = trace caller_world /\
  exists req,
    first.2 = Ok req /\ method req = "GET" /\
    url req = "http://widgets.example/api/widgets/5".
Proof.
  destruct (construct_request_repeatable (PM := plain_marshaller) getWidget
              kw_traced caller_world)
    as (Hrepeat & (_ & Htrace & _) & _ & Hshape & Hreturns).
  split; [exact Hrepeat |]. split; [exact Htrace |].
  destruct Hreturns as [req Hreq].
  - split; by_evaluation.
  - by_evaluation.
  - exact getWidget_args_declared.
  - exact getWidget_required_supplied.
  - exists req. split; [exact Hreq |].
    destruct (Hshape req Hreq) as [Hm Hu]. split.
    + rewrite Hm. reflexivity.
    + rewrite Hu. reflexivity.
Defined.

(** C8 as stated fails: [construct_request] is not a pure transformation,
    and state it leaves behind decides a later result.  The call of
    [pingWidget] with the header parameter changes the store: it writes
    [X-Trace] into the caller's headers dict.  The call without arguments,
    with the same kwargs objects both times, then builds a request with
    an [X-Trace] header, where on the store as it was it builds one
    without. *)
Lemma construct_request_pure_counterexample :
  let after :=
    (construct_request (H := plain_marshaller) pingWidget kw_ping_traced
       caller_world).1 in
  let fresh :=
    construct_request (H := plain_marshaller) pingWidget kw_ping
      caller_world in
  let later :=
    construct_request (H := plain_marshaller) pingWidget kw_ping after in
  after <> caller_world /\
  deref caller_world 0 !! "X-Trace" = None /\
  deref after 0 !! "X-Trace" = Some (VStr "on") /\
  result_map (fun d => rd_headers d !! "X-Trace")
             (result_map (describe fresh.1) fresh.2) = Ok None /\
  result_map (fun d => rd_headers d !! "X-Trace")
             (result_map (describe later.1) later.2) = Ok (Some (VStr "on")) /\
  result_map (describe fresh.1) fresh.2 <>
    result_map (describe later.1) later.2.
Proof.
  simpl. split; [|split; [|split; [|split; [|split]]]].
  - intros Heq.
    apply (f_equal (fun w => deref w 0 !! "X-Trace")) in Heq.
    vm_compute in Heq. discriminate Heq.
  - reflexivity.
  - reflexivity.
  - reflexivity.
  - reflexivity.
  - intros Heq.
    apply (f_equal (result_map (fun d => rd_headers d !! "X-Trace"))) in Heq.
    vm_compute in Heq. discriminate Heq.
Qed.
